(** * The logging facility of the Machine Learning Framework

    A shallow embedding of [tools/logger.hpp]: the severity filter, the
    message format, the file sink and the MPI variants (start and shutdown
    of the listener, the distributed write, the listener thread).

    Sequential member functions are written in a small state-and-exception
    monad over a [world]: the logger object, the backing file, and the
    trace of the calls the code makes on its collaborators (the file
    stream, the mutexes, the MPI communicator, the thread library).  The
    interplay of [shutdownListener] with the listener thread is a step
    relation on the program points of the two threads.

    The word histogram of [textprocess/histogram.hpp] is embedded next to
    it, up to the two [getWords] members and [compare], which compute on
    [float]. *)

From Stdlib Require Import ZArith NArith List String Ascii Bool Lia DecimalString.
From Stdlib Require DecimalZ DecimalPos.
Import ListNotations.

Local Open Scope string_scope.
Local Open Scope Z_scope.

(** ** Strings *)

(** [std::string::empty] *)
Definition empty (s : string) : bool :=
  match s with EmptyString => true | String _ _ => false end.

(** The newline of ["\n"]. *)
Definition newline : string := String "010"%char "".

(** [std::ostream << int]: the integer in decimal. *)
Definition show_int (n : Z) : string := NilZero.string_of_int (Z.to_int n).

(** * The word histogram *)

Module textprocess.

(** [exception::runtime], thrown with a message. *)
Inductive exception := runtime (msg : string).

(** [std::size_t], 64 bits wide: an increment wraps around. *)
Definition size_t_wrap (n : N) : N := (n mod 2 ^ 64)%N.

(** [std::map<std::string, std::size_t>]: the entries in ascending order
    of their keys, which is the order of [std::string::operator<]. *)
Definition map := list (string * N).

(** The members of the class. *)
Record histogram := {
  m_seperators    : string;
  m_casesensitive : bool;
  m_map           : map;
  m_wordcount     : N
}.

(** [histogram::histogram]; the defaults of the declaration are
    [",;.:!?- "] and [false]. *)
Definition new (p_separator : string) (p_casesensitive : bool)
  : exception + histogram :=
  if empty p_separator
  then inl (runtime "separator can not be empty")
  else inr {| m_seperators := p_separator; m_casesensitive := p_casesensitive;
              m_map := []; m_wordcount := 0%N |}.

(** [histogram::getCaseSensitivity] *)
Definition getCaseSensitivity (h : histogram) : bool := m_casesensitive h.

(** [histogram::getWordCount] *)
Definition getWordCount (h : histogram) : N := m_wordcount h.

(** [boost::is_any_of(set)]: the character is one of those of [set]. *)
Fixpoint is_any_of (set : string) (c : ascii) : bool :=
  match set with
  | EmptyString => false
  | String x set' => Ascii.eqb c x || is_any_of set' c
  end.

(** [boost::split(result, input, pred)] with the default
    [token_compress_off]: every separator ends a token, so two separators
    in a row, or one at either end, give an empty token, and the empty
    input gives one empty token. *)
Fixpoint split (pred : ascii -> bool) (input : string) : list string :=
  match input with
  | EmptyString => [EmptyString]
  | String c input' =>
      if pred c then EmptyString :: split pred input'
      else match split pred input' with
           | [] => [String c EmptyString]
           | token :: tokens => String c token :: tokens
           end
  end.

(** [boost::to_lower] in the classic locale: the letters [A] to [Z]
    become [a] to [z], every other character stays. *)
Definition to_lower_char (c : ascii) : ascii :=
  let n := N_of_ascii c in
  if (65 <=? n)%N && (n <=? 90)%N then ascii_of_N (n + 32) else c.

Fixpoint to_lower (s : string) : string :=
  match s with
  | EmptyString => EmptyString
  | String c s' => String (to_lower_char c) (to_lower s')
  end.

(** [m_map.find(key)]: the count of the entry, [None] for [m_map.end()]. *)
Fixpoint find (key : string) (m : map) : option N :=
  match m with
  | [] => None
  | (k, n) :: m' => if String.eqb key k then Some n else find key m'
  end.

(** [m_map[key] = value]: the entry is put at its place in the order of
    the keys, or overwritten if it exists. *)
Fixpoint insert (key : string) (value : N) (m : map) : map :=
  match m with
  | [] => [(key, value)]
  | (k, n) :: m' =>
      match String.compare key k with
      | Lt => (key, value) :: (k, n) :: m'
      | Eq => (k, value) :: m'
      | Gt => (k, n) :: insert key value m'
      end
  end.

(** [it->second++] on the entry that [find] returned. *)
Fixpoint increment (key : string) (m : map) : map :=
  match m with
  | [] => []
  | (k, n) :: m' =>
      if String.eqb key k then (k, size_t_wrap (n + 1)) :: m'
      else (k, n) :: increment key m'
  end.

(** The end of the loop body of [histogram::add]: a new entry with the
    count 1, or one more on the entry found. *)
Definition store (lc : string) (m : map) : map :=
  match find lc m with
  | None => insert lc 1%N m
  | Some _ => increment lc m
  end.

(** [if (m_casesensitive) boost::to_lower(lc)] *)
Definition stored (casesensitive : bool) (token : string) : string :=
  if casesensitive then to_lower token else token.

(** The body of the loop of [histogram::add] for one token. *)
Definition add_token (p_minlen : N) (h : histogram) (token : string) : histogram :=
  if (N.of_nat (String.length token) <? p_minlen)%N then h
  else
    {| m_seperators := m_seperators h;
       m_casesensitive := m_casesensitive h;
       m_map := store (stored (m_casesensitive h) token) (m_map h);
       m_wordcount := size_t_wrap (m_wordcount h + 1) |}.

(** [histogram::add(const std::string&, const std::size_t&)] *)
Definition add (p_text : string) (p_minlen : N) (h : histogram) : histogram :=
  fold_left (add_token p_minlen) (split (is_any_of (m_seperators h)) p_text) h.

(** [histogram::add(const std::vector<std::string>&, const std::size_t&)];
    the overload gets a name of its own. *)
Definition add_vec (p_vec : list string) (p_minlen : N) (h : histogram) : histogram :=
  fold_left (fun h' p_text => add p_text p_minlen h') p_vec h.

(** ** Observations *)

(** A call of one of the two [add] members, and calls in a row. *)
Inductive call :=
| Add (p_text : string) (p_minlen : N)
| AddVec (p_vec : list string) (p_minlen : N).

Definition perform (h : histogram) (c : call) : histogram :=
  match c with
  | Add p_text p_minlen => add p_text p_minlen h
  | AddVec p_vec p_minlen => add_vec p_vec p_minlen h
  end.

(** The count of a word: that of its entry, 0 without one. *)
Definition count (key : string) (m : map) : N :=
  match find key m with
  | Some n => n
  | None => 0%N
  end.

(** The sum of all counts. *)
Fixpoint total (m : map) : N :=
  match m with
  | [] => 0%N
  | (_, n) :: m' => (n + total m')%N
  end.

Definition keys (m : map) : list string := List.map fst m.

(** The tokens of a text that [add] counts, as it stores them. *)
Definition long_enough (p_minlen : N) (token : string) : bool :=
  negb (N.of_nat (String.length token) <? p_minlen)%N.

Definition counted (h : histogram) (p_text : string) (p_minlen : N) : list string :=
  List.map (stored (m_casesensitive h))
    (filter (long_enough p_minlen) (split (is_any_of (m_seperators h)) p_text)).

(** The words that a call counts, and those of calls in a row. *)
Definition counted_by (h : histogram) (c : call) : list string :=
  match c with
  | Add p_text p_minlen => counted h p_text p_minlen
  | AddVec p_vec p_minlen =>
      flat_map (fun p_text => counted h p_text p_minlen) p_vec
  end.

(** How many characters of a text are separators. *)
Fixpoint separators_in (pred : ascii -> bool) (s : string) : nat :=
  match s with
  | EmptyString => O
  | String c s' => ((if pred c then 1 else 0) + separators_in pred s')%nat
  end.

(** How often a word is in a list. *)
Definition occurrences (key : string) (ws : list string) : N :=
  N.of_nat (List.length (filter (String.eqb key) ws)).

(** A histogram after the words [ws] have been stored one by one: what
    [add] is to be for the words it counts. *)
Definition store_word (h : histogram) (w : string) : histogram :=
  {| m_seperators := m_seperators h;
     m_casesensitive := m_casesensitive h;
     m_map := store w (m_map h);
     m_wordcount := size_t_wrap (m_wordcount h + 1) |}.

Definition store_words (ws : list string) (h : histogram) : histogram :=
  fold_left store_word ws h.

(** A word in lower case. *)
Definition lower (w : string) : Prop := to_lower w = w.

(** The histogram of the default constructor arguments. *)
Definition default : histogram :=
  {| m_seperators := ",;.:!?- "; m_casesensitive := false;
     m_map := []; m_wordcount := 0%N |}.

(** The counters are values of [std::size_t]. *)
Definition in_range (h : histogram) : Prop :=
  (m_wordcount h < 2 ^ 64)%N /\ Forall (fun e => (snd e < 2 ^ 64)%N) (m_map h).

End textprocess.

Module logger.

(** ** Data *)

(** [enum logstate]: the enumerators are integers, and the comparison
    [p_state > m_logstate] in [write] is a comparison of integers.  A
    value of the type need not be one of the four enumerators. *)
Definition logstate := Z.
Definition none  : logstate := 0.
Definition error : logstate := 1.
Definition warn  : logstate := 2.
Definition info  : logstate := 3.

(** [#define LOGGER_MPI_TAG 999] *)
Definition LOGGER_MPI_TAG : Z := 999.

(** [exception::runtime], thrown with a message. *)
Inductive exception := runtime (msg : string).

(** What a call does: it returns, or it leaves by an exception that the
    caller of that very call receives. *)
Inductive outcome (A : Type) :=
| Ok (a : A)
| Throw (e : exception).
Arguments Ok {A} a.
Arguments Throw {A} e.

(** The three mutexes of the class. *)
Inductive mutex := m_muxwriter | m_muxlistener | m_muxfinalize.

Inductive openmode := ios_base_app.

(** The calls the logger makes on its collaborators, in program order. *)
Inductive event :=
| EvLock (m : mutex)                      (* lock_guard constructed *)
| EvUnlock (m : mutex)                    (* lock_guard destroyed *)
| EvOpen (path : string) (mode : openmode)   (* m_file.open(path, mode) *)
| EvPut (s : string)                      (* m_file << s *)
| EvFlush                                 (* m_file.flush() *)
| EvSetRunning (b : bool)                 (* m_listenerrunnging = b *)
| EvBarrier                               (* p_mpi.barrier() *)
| EvIsend (dest tag : Z) (payload : string)  (* p_mpi.isend(dest, tag, payload) *)
| EvThread.                               (* boost::thread on logger::listener *)

(** [std::ofstream m_file].  The stream's exception mask is never set by
    the logger, so a failing operation sets [failbit] and returns; it does
    not throw.  Output goes to [buffer] and reaches the file on [flush]. *)
Record ofstream := {
  is_open : bool;
  failbit : bool;
  buffer  : string
}.

(** The file at path [m_filename], the only path the logger opens:
    whether an open of it succeeds, and what it holds. *)
Record backing_file := {
  openable : bool;
  content  : string
}.

(** The members of the class.  [m_filename] is a static member whose
    definition is outside the header; it is kept as a field that no
    member function assigns. *)
Record logger := {
  m_filename          : string;
  m_logstate          : logstate;
  m_file              : ofstream;
  m_listenerrunnging  : bool
}.

Record world := {
  self  : logger;
  disk  : backing_file;
  trace : list event
}.

(** [boost::mpi::communicator]: what the logger reads of it. *)
Record communicator := {
  rank : Z;
  size : Z
}.

(** ** The monad *)

Definition M (A : Type) : Type := world -> outcome A * world.

Definition ret {A} (a : A) : M A := fun w => (Ok a, w).

Definition bind {A B} (c : M A) (k : A -> M B) : M B :=
  fun w =>
    match c w with
    | (Ok a, w') => k a w'
    | (Throw e, w') => (Throw e, w')
    end.

Notation "x <- c ;; k" := (bind c (fun x => k))
  (at level 61, c at next level, right associativity).
Notation "c ;; k" := (bind c (fun _ => k))
  (at level 61, right associativity).

Definition lift {A} (o : outcome A) : M A := fun w => (o, w).

Definition this : M logger := fun w => (Ok (self w), w).

Definition emit (e : event) : M unit :=
  fun w => (Ok tt, {| self := self w; disk := disk w; trace := trace w ++ [e] |}).

Definition set_self (l : logger) : M unit :=
  fun w => (Ok tt, {| self := l; disk := disk w; trace := trace w |}).

Definition with_file (l : logger) (f : ofstream) : logger :=
  {| m_filename := m_filename l; m_logstate := m_logstate l;
     m_file := f; m_listenerrunnging := m_listenerrunnging l |}.

Definition with_running (l : logger) (b : bool) : logger :=
  {| m_filename := m_filename l; m_logstate := m_logstate l;
     m_file := m_file l; m_listenerrunnging := b |}.

(** ** The file stream *)

Definition good (f : ofstream) : bool := is_open f && negb (failbit f).

(** [m_file.open(path, mode)]: fails on a stream that is open already and
    when the file cannot be opened; a failure sets [failbit], a success
    clears the state. *)
Definition ofstream_open (path : string) (mode : openmode) : M unit :=
  emit (EvOpen path mode) ;;
  fun w =>
    let f := m_file (self w) in
    let f' :=
      if is_open f then {| is_open := true; failbit := true; buffer := buffer f |}
      else if openable (disk w)
           then {| is_open := true; failbit := false; buffer := buffer f |}
           else {| is_open := false; failbit := true; buffer := buffer f |} in
    (Ok tt, {| self := with_file (self w) f'; disk := disk w; trace := trace w |}).

(** [m_file << s]: on a stream that is not good nothing is inserted. *)
Definition ofstream_put (s : string) : M unit :=
  emit (EvPut s) ;;
  fun w =>
    let f := m_file (self w) in
    let f' :=
      if good f then {| is_open := is_open f; failbit := failbit f; buffer := buffer f ++ s |}
      else {| is_open := is_open f; failbit := true; buffer := buffer f |} in
    (Ok tt, {| self := with_file (self w) f'; disk := disk w; trace := trace w |}).

(** [m_file.flush()]: a good stream hands its buffer to the file. *)
Definition ofstream_flush : M unit :=
  emit EvFlush ;;
  fun w =>
    let f := m_file (self w) in
    if good f
    then (Ok tt,
          {| self := with_file (self w)
                       {| is_open := is_open f; failbit := failbit f; buffer := "" |};
             disk := {| openable := openable (disk w);
                        content := content (disk w) ++ buffer f |};
             trace := trace w |})
    else (Ok tt, w).

(** ** Local logging *)

(** [logger::setLevel] *)
Definition setLevel (p_state : logstate) : M unit :=
  l <- this ;;
  set_self {| m_filename := m_filename l; m_logstate := p_state;
              m_file := m_file l; m_listenerrunnging := m_listenerrunnging l |}.

(** [logger::getLevel] *)
Definition getLevel : M logstate :=
  l <- this ;; ret (m_logstate l).

(** [logger::getFilename] *)
Definition getFilename : M string :=
  l <- this ;; ret (m_filename l).

(** [logger::logformat]: a const member that appends to the stream it is
    given; the stream is the string built so far.  The message of the
    exception is the argument of the translation macro [_]. *)
Definition logformat (p_state : logstate) (p_val : string) (p_stream : string)
  : outcome string :=
  if p_state =? info then Ok (p_stream ++ "[info]       " ++ p_val)
  else if p_state =? warn then Ok (p_stream ++ "[warn]       " ++ p_val)
  else if p_state =? error then Ok (p_stream ++ "[error]      " ++ p_val)
  else Throw (runtime "log state is unkown").

(** [logger::write2file] *)
Definition write2file (p_data : string) : M unit :=
  if empty p_data then ret tt
  else
    emit (EvLock m_muxwriter) ;;
    l <- this ;;
    (if negb (is_open (m_file l))
     then ofstream_open (m_filename l) ios_base_app
     else ret tt) ;;
    ofstream_put p_data ;;
    ofstream_put newline ;;
    ofstream_flush ;;
    emit (EvUnlock m_muxwriter).

(** The guard that opens both [write] members. *)
Definition filtered (m_logstate p_state : logstate) : bool :=
  (m_logstate =? none) || (p_state =? none) || (p_state >? m_logstate).

(** [logger::write(const logstate&, const T&)], the value being a string. *)
Definition write (p_state : logstate) (p_val : string) : M unit :=
  l <- this ;;
  if filtered (m_logstate l) p_state then ret tt
  else
    l_stream <- lift (logformat p_state p_val "local - ") ;;
    write2file l_stream.

(** ** Logging over MPI *)

(** [m_listenerrunnging = b]: the flag is shared with the listener
    thread, so the store is recorded in the trace as well. *)
Definition store_running (b : bool) : M unit :=
  emit (EvSetRunning b) ;;
  l <- this ;;
  set_self (with_running l b).

(** [logger::startListener] *)
Definition startListener (p_mpi : communicator) : M unit :=
  emit EvBarrier ;;
  l <- this ;;
  if negb (rank p_mpi =? 0) || (size p_mpi =? 1) || m_listenerrunnging l
  then ret tt
  else
    emit (EvLock m_muxlistener) ;;
    store_running true ;;
    emit EvThread ;;
    emit (EvUnlock m_muxlistener).

(** [logger::shutdownListener], as one thread runs it when no other
    thread holds [m_muxfinalize].  The lock guard is the whole body of the
    [if], so it is destroyed as soon as it has been constructed. *)
Definition shutdownListener (p_mpi : communicator) : M unit :=
  store_running false ;;
  emit EvBarrier ;;
  if rank p_mpi =? 0
  then emit (EvLock m_muxfinalize) ;; emit (EvUnlock m_muxfinalize)
  else ret tt.

(** [logger::write(const mpi::communicator&, const logstate&, const T&)];
    the overload gets a name of its own. *)
Definition write_mpi (p_mpi : communicator) (p_state : logstate) (p_val : string)
  : M unit :=
  l <- this ;;
  if filtered (m_logstate l) p_state then ret tt
  else
    l_stream <- lift (logformat p_state p_val
                        ("CPU " ++ show_int (rank p_mpi) ++ " - ")) ;;
    if rank p_mpi =? 0
    then write2file l_stream
    else emit (EvIsend 0 LOGGER_MPI_TAG l_stream).

(** ** The listener thread and the thread that shuts it down

    Two threads of the coordinator share the logger: the one that calls
    [shutdownListener] and the one that runs [logger::listener].  Each
    moves one statement at a time; messages of other processes arrive in
    between. *)

Inductive thread := Caller | Listener.

(** Program points of [logger::listener]. *)
Inductive listener_pc :=
| LsLock      (* lock_guard l_lock(m_muxfinalize) *)
| LsWhile     (* while (m_listenerrunnging) *)
| LsProbe     (* while (l_status = p_mpi.iprobe(any_source, LOGGER_MPI_TAG)) *)
| LsRecv      (* p_mpi.recv(...); l_stream << l_str; write2file(l_stream) *)
| LsYield     (* boost::this_thread::yield() *)
| LsUnlock    (* l_lock destroyed at the end of the function *)
| LsExit.     (* the thread function has returned *)

Record system := {
  sys_world      : world;            (* the coordinator's logger and file *)
  finalize_owner : option thread;    (* who holds m_muxfinalize *)
  inbox          : list string;      (* messages tagged LOGGER_MPI_TAG that
                                        have arrived and that iprobe sees *)
  caller_todo    : list event;       (* what is left of shutdownListener *)
  listener       : listener_pc
}.

(** The calls [shutdownListener] makes, in program order: its trace from
    an empty one.  The function branches on the rank only, so the calls do
    not depend on the logger it starts from. *)
Definition shutdown_calls (p_mpi : communicator) (w : world) : list event :=
  skipn (List.length (trace w)) (trace (snd (shutdownListener p_mpi w))).

Definition set_running (w : world) (b : bool) : world :=
  {| self := with_running (self w) b; disk := disk w; trace := trace w |}.

(** One statement of the thread in [shutdownListener].  Locking blocks
    while the mutex is held. *)
Definition caller_step (s : system) : option system :=
  match caller_todo s with
  | [] => None
  | EvSetRunning b :: rest =>
      Some {| sys_world := set_running (sys_world s) b;
              finalize_owner := finalize_owner s; inbox := inbox s;
              caller_todo := rest; listener := listener s |}
  | EvBarrier :: rest =>
      Some {| sys_world := sys_world s;
              finalize_owner := finalize_owner s; inbox := inbox s;
              caller_todo := rest; listener := listener s |}
  | EvLock m_muxfinalize :: rest =>
      match finalize_owner s with
      | None =>
          Some {| sys_world := sys_world s;
                  finalize_owner := Some Caller; inbox := inbox s;
                  caller_todo := rest; listener := listener s |}
      | Some _ => None
      end
  | EvUnlock m_muxfinalize :: rest =>
      Some {| sys_world := sys_world s;
              finalize_owner := None; inbox := inbox s;
              caller_todo := rest; listener := listener s |}
  | _ :: _ => None
  end.

Definition at_pc (s : system) (pc : listener_pc) : system :=
  {| sys_world := sys_world s; finalize_owner := finalize_owner s;
     inbox := inbox s; caller_todo := caller_todo s; listener := pc |}.

(** One statement of [logger::listener]. *)
Definition listener_step (s : system) : option system :=
  match listener s with
  | LsLock =>
      match finalize_owner s with
      | None =>
          Some {| sys_world := sys_world s;
                  finalize_owner := Some Listener; inbox := inbox s;
                  caller_todo := caller_todo s; listener := LsWhile |}
      | Some _ => None
      end
  | LsWhile =>
      if m_listenerrunnging (self (sys_world s))
      then Some (at_pc s LsProbe)
      else Some (at_pc s LsUnlock)
  | LsProbe =>
      match inbox s with
      | [] => Some (at_pc s LsYield)
      | _ :: _ => Some (at_pc s LsRecv)
      end
  | LsRecv =>
      match inbox s with
      | [] => None
      | l_str :: rest =>
          Some {| sys_world := snd (write2file l_str (sys_world s));
                  finalize_owner := finalize_owner s; inbox := rest;
                  caller_todo := caller_todo s; listener := LsProbe |}
      end
  | LsYield => Some (at_pc s LsWhile)
  | LsUnlock =>
      Some {| sys_world := sys_world s;
              finalize_owner := None; inbox := inbox s;
              caller_todo := caller_todo s; listener := LsExit |}
  | LsExit => None
  end.

(** A message sent by another process becomes visible to [iprobe]. *)
Definition deliver (l_str : string) (s : system) : system :=
  {| sys_world := sys_world s; finalize_owner := finalize_owner s;
     inbox := inbox s ++ [l_str]; caller_todo := caller_todo s;
     listener := listener s |}.

Inductive action :=
| Sched (t : thread)
| Arrive (l_str : string).

Definition exec (a : action) (s : system) : option system :=
  match a with
  | Sched Caller => caller_step s
  | Sched Listener => listener_step s
  | Arrive l_str => Some (deliver l_str s)
  end.

(** A schedule, run from the left; [None] when it asks a blocked or
    finished thread to move. *)
Fixpoint run (sched : list action) (s : system) : option system :=
  match sched with
  | [] => Some s
  | a :: sched' =>
      match exec a s with
      | Some s' => run sched' s'
      | None => None
      end
  end.


(** The coordinator once the listener thread has taken [m_muxfinalize]
    and stands at the test of its outer loop. *)
Definition listening (p_mpi : communicator) (w : world) : system :=
  {| sys_world := w; finalize_owner := Some Listener; inbox := [];
     caller_todo := shutdown_calls p_mpi w; listener := LsWhile |}.

(** ** Observations *)

(** The program points at which the listener holds [m_muxfinalize]. *)
Definition in_loop (pc : listener_pc) : bool :=
  match pc with
  | LsWhile | LsProbe | LsRecv | LsYield | LsUnlock => true
  | LsLock | LsExit => false
  end.

(** The listener holds the mutex, or has given it back and returned. *)
Definition held_or_exited (s : system) : Prop :=
  (in_loop (listener s) = true /\ finalize_owner s = Some Listener) \/
  (listener s = LsExit /\ finalize_owner s = None).

(** Where the two threads can stand, one line per program point of
    [shutdownListener] on rank 0, when the listener took the mutex before
    the call. *)
Definition joining (s : system) : Prop :=
  (caller_todo s = [EvSetRunning false; EvBarrier;
                    EvLock m_muxfinalize; EvUnlock m_muxfinalize] /\
   held_or_exited s) \/
  (caller_todo s = [EvBarrier; EvLock m_muxfinalize; EvUnlock m_muxfinalize] /\
   held_or_exited s /\ m_listenerrunnging (self (sys_world s)) = false) \/
  (caller_todo s = [EvLock m_muxfinalize; EvUnlock m_muxfinalize] /\
   held_or_exited s /\ m_listenerrunnging (self (sys_world s)) = false) \/
  (caller_todo s = [EvUnlock m_muxfinalize] /\
   listener s = LsExit /\ finalize_owner s = Some Caller /\
   m_listenerrunnging (self (sys_world s)) = false) \/
  (caller_todo s = [] /\
   listener s = LsExit /\ finalize_owner s = None /\
   m_listenerrunnging (self (sys_world s)) = false).

(** The constructor: [m_logstate(none)], the stream closed, no listener. *)
Definition logger_new (filename : string) : logger :=
  {| m_filename := filename; m_logstate := none;
     m_file := {| is_open := false; failbit := false; buffer := "" |};
     m_listenerrunnging := false |}.

Definition boot (filename : string) (can_open : bool) : world :=
  {| self := logger_new filename;
     disk := {| openable := can_open; content := "" |};
     trace := [] |}.

(** The calls a computation adds to the trace. *)
Definition calls {A} (c : M A) (w : world) : list event :=
  skipn (List.length (trace w)) (trace (snd (c w))).

(** Calls on the file stream. *)
Definition file_io (e : event) : bool :=
  match e with
  | EvOpen _ _ | EvPut _ | EvFlush => true
  | _ => false
  end.

(** Calls on the communicator that put a message on the network. *)
Definition network_io (e : event) : bool :=
  match e with
  | EvIsend _ _ _ => true
  | _ => false
  end.

Definition emits {A} (c : M A) (w : world) : bool :=
  existsb file_io (calls c w).

(** The enumerators of [logstate], and the three that have a label. *)
Definition enumerator (p_state : logstate) : Prop :=
  p_state = none \/ p_state = error \/ p_state = warn \/ p_state = info.

Definition labelled (p_state : logstate) : Prop :=
  p_state = error \/ p_state = warn \/ p_state = info.

(** The label [logformat] prints, with its padding. *)
Definition label (p_state : logstate) : string :=
  if p_state =? info then "[info]       "
  else if p_state =? warn then "[warn]       "
  else "[error]      ".

(** The severity filter read positively: the message is let through. *)
Definition passes (threshold p_state : logstate) : Prop :=
  p_state <> none /\ threshold <> none /\ p_state <= threshold.

(** A stream that the next [write2file] can write through: nothing is
    left in its buffer, and it is open and sound, or closed with a file
    that can be opened. *)
Definition ready (w : world) : Prop :=
  buffer (m_file (self w)) = "" /\
  (if is_open (m_file (self w))
   then failbit (m_file (self w)) = false
   else openable (disk w) = true).

(** How often a trace calls [open]. *)
Definition opens (es : list event) : nat :=
  List.length (filter (fun e => match e with EvOpen _ _ => true | _ => false end) es).

(** The line as the specification words it:
    ["<origin> - [<level>] <text>"], the level being [info], [warn] or
    [error]. *)
Definition level_name (p_state : logstate) : string :=
  if p_state =? info then "info"
  else if p_state =? warn then "warn"
  else "error".

Definition spec_line (origin level text : string) : string :=
  origin ++ " - [" ++ level ++ "] " ++ text.

Fixpoint blanks (n : nat) : string :=
  match n with
  | O => ""
  | S n' => String " "%char (blanks n')
  end.

(** The origin that the distributed write prints. *)
Definition cpu (p_mpi : communicator) : string :=
  "CPU " ++ show_int (rank p_mpi).

Definition sent (w : world) (dest tag : Z) (payload : string) : world :=
  {| self := self w; disk := disk w;
     trace := trace w ++ [EvIsend dest tag payload] |}.

(** Worlds for the examples: a new logger on [log.txt] with the threshold
    set, the file being one that can be opened or not. *)
Definition configured (threshold : logstate) (can_open : bool) : world :=
  snd (setLevel threshold (boot "log.txt" can_open)).

(** Rank 0 of a job of four, and its world after [startListener]. *)
Definition coordinator : communicator := {| rank := 0; size := 4 |}.

Definition started : world :=
  snd (startListener coordinator (configured info true)).

(** A schedule in which a message arrives, the listener forwards it, and
    the caller of [shutdownListener] waits for the listener to leave. *)
Definition orderly_shutdown : list action :=
  [Sched Listener; Arrive "CPU 1 - [info]       hello";
   Sched Caller; Sched Listener; Sched Listener; Sched Caller;
   Sched Listener; Sched Listener; Sched Listener; Sched Listener;
   Sched Caller; Sched Caller].

(** ** Callers and further observations *)

(** A caller that hands a list of lines to [f], one call after the
    other. *)
Fixpoint each (f : string -> M unit) (ls : list string) : M unit :=
  match ls with
  | [] => ret tt
  | l :: ls' => f l ;; each f ls'
  end.

(** What the sink is to leave in the file for a list of lines: every line
    that is not empty, with a newline after it. *)
Fixpoint persisted (ls : list string) : string :=
  match ls with
  | [] => ""
  | l :: ls' => (if empty l then "" else l ++ newline) ++ persisted ls'
  end.

(** How often a trace creates a thread, and how often it enters the
    barrier. *)
Definition threads (es : list event) : nat :=
  List.length (filter (fun e => match e with EvThread => true | _ => false end) es).

Definition barriers (es : list event) : nat :=
  List.length (filter (fun e => match e with EvBarrier => true | _ => false end) es).

(** The messages that a schedule lets arrive, in order. *)
Fixpoint arrivals (sched : list action) : list string :=
  match sched with
  | [] => []
  | Arrive l_str :: sched' => l_str :: arrivals sched'
  | Sched _ :: sched' => arrivals sched'
  end.

(** The listener scheduled [n] times in a row. *)
Definition listener_alone (n : nat) : list action := repeat (Sched Listener) n.

(** A string without a blank. *)
Fixpoint no_blank (s : string) : bool :=
  match s with
  | EmptyString => true
  | String c s' => negb (Ascii.eqb c " ") && no_blank s'
  end.

(** ** The instance

    [static logger* m_instance] and the objects that [new logger()] has
    created; a pointer is the position of its object, and the null
    pointer is [None]. *)
Record statics := {
  m_instance : option nat;
  objects    : list logger
}.

(** [new logger()] stored into [m_instance]. *)
Definition new_instance (filename : string) (st : statics) : statics :=
  {| m_instance := Some (List.length (objects st));
     objects := (objects st ++ [logger_new filename])%list |}.

(** [logger::getInstance] *)
Definition getInstance (filename : string) (st : statics) : option nat * statics :=
  let st' := match m_instance st with
             | None => new_instance filename st
             | Some _ => st
             end in
  (m_instance st', st').

(** [n] calls of [getInstance] in a row, with what each returned. *)
Fixpoint getInstance_times (filename : string) (n : nat) (st : statics)
  : list (option nat) * statics :=
  match n with
  | O => ([], st)
  | S n' =>
      let (p, st1) := getInstance filename st in
      let (ps, st2) := getInstance_times filename n' st1 in
      (p :: ps, st2)
  end.

(** Program points of [getInstance] for a thread that runs it next to
    another one. *)
Inductive instance_pc :=
| GiTest                       (* if (!m_instance) *)
| GiNew                        (* new logger() *)
| GiStore (p : nat)            (* m_instance = the new object *)
| GiReturn                     (* return m_instance *)
| GiDone (p : option nat).     (* returned p *)

Definition getInstance_step (filename : string) (pc : instance_pc) (st : statics)
  : option (instance_pc * statics) :=
  match pc with
  | GiTest =>
      match m_instance st with
      | None => Some (GiNew, st)
      | Some _ => Some (GiReturn, st)
      end
  | GiNew =>
      Some (GiStore (List.length (objects st)),
            {| m_instance := m_instance st;
               objects := (objects st ++ [logger_new filename])%list |})
  | GiStore p =>
      Some (GiReturn, {| m_instance := Some p; objects := objects st |})
  | GiReturn => Some (GiDone (m_instance st), st)
  | GiDone _ => None
  end.

(** Two threads in [getInstance]; [true] in a schedule moves the first. *)
Record racing := {
  shared : statics;
  first  : instance_pc;
  second : instance_pc
}.

Definition race_step (filename : string) (who : bool) (r : racing) : option racing :=
  if who
  then match getInstance_step filename (first r) (shared r) with
       | Some (pc, st) => Some {| shared := st; first := pc; second := second r |}
       | None => None
       end
  else match getInstance_step filename (second r) (shared r) with
       | Some (pc, st) => Some {| shared := st; first := first r; second := pc |}
       | None => None
       end.

Fixpoint race (filename : string) (sched : list bool) (r : racing) : option racing :=
  match sched with
  | [] => Some r
  | who :: sched' =>
      match race_step filename who r with
      | Some r' => race filename sched' r'
      | None => None
      end
  end.

(** No instance yet, both threads at the start of [getInstance]. *)
Definition race_start : racing :=
  {| shared := {| m_instance := None; objects := [] |};
     first := GiTest; second := GiTest |}.

(** The configuration of the logger: what [setLevel], the constructor and
    the listener calls set, and logging is to leave alone. *)
Definition same_configuration (w w' : world) : Prop :=
  m_filename (self w') = m_filename (self w) /\
  m_logstate (self w') = m_logstate (self w) /\
  m_listenerrunnging (self w') = m_listenerrunnging (self w).

(** The test of [startListener], read positively. *)
Definition may_start (p_mpi : communicator) (w : world) : bool :=
  (rank p_mpi =? 0) && negb (size p_mpi =? 1)
  && negb (m_listenerrunnging (self w)).

(** A listener that stands at its [recv] has probed a message: the inbox
    is not empty. *)
Definition probed (s : system) : Prop :=
  listener s = LsRecv -> inbox s <> [].

(** * Properties *)

(** ** Strings and traces *)

Lemma append_nil_r (s : string) : s ++ "" = s.
Proof. induction s as [|c s IH]; simpl; [reflexivity | now rewrite IH]. Qed.

Lemma append_assoc (a b c : string) : (a ++ b) ++ c = a ++ (b ++ c).
Proof. induction a as [|x a IH]; simpl; [reflexivity | now rewrite IH]. Qed.

Lemma skipn_prefix {A} (l es : list A) : skipn (List.length l) (l ++ es)%list = es.
Proof. induction l as [|x l IH]; simpl; [reflexivity | exact IH]. Qed.

Lemma skipn_whole {A} (l : list A) : skipn (List.length l) l = [].
Proof. induction l as [|x l IH]; simpl; [reflexivity | exact IH]. Qed.

Lemma calls_of_trace {A} (c : M A) (w : world) (es : list event) :
  trace (snd (c w)) = (trace w ++ es)%list -> calls c w = es.
Proof. unfold calls. intros ->. apply skipn_prefix. Qed.

Lemma calls_unchanged {A} (c : M A) (w : world) (o : outcome A) :
  c w = (o, w) -> calls c w = [].
Proof. unfold calls. intros ->. simpl. apply skipn_whole. Qed.

(** ** The severity filter *)

Lemma passes_filtered (threshold p_state : logstate) :
  filtered threshold p_state = false <-> passes threshold p_state.
Proof.
  unfold filtered, passes, none.
  rewrite !orb_false_iff, !Z.eqb_neq, Z.gtb_ltb, Z.ltb_ge. tauto.
Qed.

Lemma not_passes_filtered (threshold p_state : logstate) :
  filtered threshold p_state = true <-> ~ passes threshold p_state.
Proof.
  rewrite <- passes_filtered. destruct (filtered threshold p_state); split; congruence.
Qed.

Lemma labelled_enumerator (p_state : logstate) :
  enumerator p_state -> p_state <> none -> labelled p_state.
Proof. unfold enumerator, labelled. tauto. Qed.

(** ** The format *)

Lemma logformat_labelled (p_state : logstate) (p_val p_stream : string) :
  labelled p_state ->
  logformat p_state p_val p_stream = Ok (p_stream ++ label p_state ++ p_val).
Proof.
  unfold labelled, logformat, label, error, warn, info.
  intros [-> | [-> | ->]]; reflexivity.
Qed.

Lemma logformat_unlabelled (p_state : logstate) (p_val p_stream : string) :
  ~ labelled p_state ->
  logformat p_state p_val p_stream = Throw (runtime "log state is unkown").
Proof.
  unfold labelled, logformat. intros H.
  destruct (Z.eqb_spec p_state info); [tauto |].
  destruct (Z.eqb_spec p_state warn); [tauto |].
  destruct (Z.eqb_spec p_state error); [tauto | reflexivity].
Qed.

(** ** The file sink *)

Ltac unfold_sink :=
  unfold write2file, ofstream_open, ofstream_put, ofstream_flush,
    bind, emit, this, ret, good.

Lemma write2file_empty (w : world) : write2file "" w = (Ok tt, w).
Proof. reflexivity. Qed.

Lemma write2file_returns (p_data : string) (w : world) :
  fst (write2file p_data w) = Ok tt.
Proof.
  destruct p_data as [|c d]; [reflexivity |].
  destruct w as [[fn ls [o fb buf] run] [can ct] tr].
  unfold_sink; simpl. destruct o, can, fb; reflexivity.
Qed.

Lemma write2file_trace (p_data : string) (w : world) :
  p_data <> "" ->
  trace (snd (write2file p_data w)) =
    (trace w ++ EvLock m_muxwriter ::
       (if is_open (m_file (self w)) then []
        else [EvOpen (m_filename (self w)) ios_base_app]) ++
       [EvPut p_data; EvPut newline; EvFlush; EvUnlock m_muxwriter])%list.
Proof.
  destruct p_data as [|c d]; [congruence | intros _].
  destruct w as [[fn ls [o fb buf] run] [can ct] tr].
  unfold_sink; simpl.
  destruct o, can, fb; simpl; repeat rewrite <- app_assoc; reflexivity.
Qed.

Lemma write2file_calls (p_data : string) (w : world) :
  p_data <> "" ->
  calls (write2file p_data) w =
    (EvLock m_muxwriter ::
       (if is_open (m_file (self w)) then []
        else [EvOpen (m_filename (self w)) ios_base_app]) ++
       [EvPut p_data; EvPut newline; EvFlush; EvUnlock m_muxwriter])%list.
Proof. intros H. apply calls_of_trace. now apply write2file_trace. Qed.

Lemma write2file_emits (p_data : string) (w : world) :
  p_data <> "" -> emits (write2file p_data) w = true.
Proof.
  intros H. unfold emits. rewrite (write2file_calls _ _ H).
  simpl. rewrite existsb_app. simpl. apply orb_true_r.
Qed.

Lemma write2file_ready (p_data : string) (w : world) :
  p_data <> "" -> ready w ->
  content (disk (snd (write2file p_data w))) = content (disk w) ++ p_data ++ newline /\
  buffer (m_file (self (snd (write2file p_data w)))) = "" /\
  is_open (m_file (self (snd (write2file p_data w)))) = true /\
  failbit (m_file (self (snd (write2file p_data w)))) = false.
Proof.
  destruct p_data as [|c d]; [congruence | intros _].
  destruct w as [[fn ls [o fb buf] run] [can ct] tr].
  unfold ready; simpl. intros [-> H].
  unfold_sink; simpl.
  destruct o; simpl in *; subst; simpl; repeat split; reflexivity.
Qed.

Lemma write2file_cannot_open (p_data : string) (w : world) :
  p_data <> "" ->
  is_open (m_file (self w)) = false -> openable (disk w) = false ->
  disk (snd (write2file p_data w)) = disk w /\
  is_open (m_file (self (snd (write2file p_data w)))) = false /\
  failbit (m_file (self (snd (write2file p_data w)))) = true.
Proof.
  destruct p_data as [|c d]; [congruence | intros _].
  destruct w as [[fn ls [o fb buf] run] [can ct] tr]; simpl.
  intros -> ->. unfold_sink; simpl. repeat split; reflexivity.
Qed.

(** ** The local write, case by case *)

Lemma write_filtered (p_state : logstate) (p_val : string) (w : world) :
  ~ passes (m_logstate (self w)) p_state -> write p_state p_val w = (Ok tt, w).
Proof.
  intros H. apply not_passes_filtered in H.
  unfold write, bind, this. now rewrite H.
Qed.

Lemma write_passes (p_state : logstate) (p_val : string) (w : world) :
  passes (m_logstate (self w)) p_state -> labelled p_state ->
  write p_state p_val w = write2file ("local - " ++ label p_state ++ p_val) w.
Proof.
  intros H L. apply passes_filtered in H.
  unfold write, bind, this, lift. rewrite H.
  now rewrite (logformat_labelled _ _ _ L).
Qed.

Lemma write_throws (p_state : logstate) (p_val : string) (w : world) :
  passes (m_logstate (self w)) p_state -> ~ labelled p_state ->
  write p_state p_val w = (Throw (runtime "log state is unkown"), w).
Proof.
  intros H L. apply passes_filtered in H.
  unfold write, bind, this, lift. rewrite H.
  now rewrite (logformat_unlabelled _ _ _ L).
Qed.

Lemma passes_dec (threshold p_state : logstate) :
  passes threshold p_state \/ ~ passes threshold p_state.
Proof.
  rewrite <- passes_filtered.
  destruct (filtered threshold p_state); [right; congruence | left; reflexivity].
Qed.

Lemma local_line_not_empty (p_state : logstate) (p_val : string) :
  "local - " ++ label p_state ++ p_val <> "".
Proof. discriminate. Qed.

(** ** Claims on the local write and the file sink *)

(** C1.  For a level that is one of the enumerators and any threshold,
    the local [write] emits the message if and only if the level is not
    [none], the threshold is not [none], and the level is at most the
    threshold.  When the three hold, the call is the append of the line
    [local - <label><text>] to the file sink: it returns, the calls on
    the stream are the open in append mode if the stream is closed, the
    put of that line, the put of a newline and the flush, under the
    writer mutex, and a ready stream leaves the line and the newline at
    the end of the file.  When one of them fails, the call returns with
    the world as it was, so the stream is not called.  After
    [setLevel none] a write of any level returns without a call and
    leaves the world as it was. *)
Theorem write_emits_iff (w : world) (p_state : logstate) (p_val : string) :
  enumerator p_state ->
  (emits (write p_state p_val) w = true <->
     p_state <> none /\ m_logstate (self w) <> none /\
     p_state <= m_logstate (self w)) /\
  (p_state <> none /\ m_logstate (self w) <> none /\
   p_state <= m_logstate (self w) ->
     write p_state p_val w
     = write2file ("local - " ++ label p_state ++ p_val) w /\
     fst (write p_state p_val w) = Ok tt /\
     calls (write p_state p_val) w =
       (EvLock m_muxwriter ::
          (if is_open (m_file (self w)) then []
           else [EvOpen (m_filename (self w)) ios_base_app]) ++
          [EvPut ("local - " ++ label p_state ++ p_val); EvPut newline;
           EvFlush; EvUnlock m_muxwriter])%list /\
     (ready w ->
        content (disk (snd (write p_state p_val w)))
        = content (disk w) ++ ("local - " ++ label p_state ++ p_val) ++ newline)) /\
  (~ (p_state <> none /\ m_logstate (self w) <> none /\
      p_state <= m_logstate (self w)) ->
     write p_state p_val w = (Ok tt, w)) /\
  (forall (q : logstate) (v : string),
     write q v (snd (setLevel none w)) = (Ok tt, snd (setLevel none w))).
Proof.
  intros E.
  change (p_state <> none /\ m_logstate (self w) <> none /\
          p_state <= m_logstate (self w))
    with (passes (m_logstate (self w)) p_state).
  split; [| split; [| split]].
  - destruct (passes_dec (m_logstate (self w)) p_state) as [P | P].
    + assert (L : labelled p_state)
        by (apply labelled_enumerator; [exact E | apply P]).
      unfold emits, calls. rewrite (write_passes _ p_val _ P L).
      split; [intros _; exact P | intros _].
      apply write2file_emits, local_line_not_empty.
    + unfold emits. rewrite (calls_unchanged _ _ _ (write_filtered _ p_val _ P)).
      simpl. split; [discriminate | tauto].
  - intros P.
    assert (L : labelled p_state)
      by (apply labelled_enumerator; [exact E | apply P]).
    pose proof (write_passes _ p_val _ P L) as W.
    pose proof (local_line_not_empty p_state p_val) as N.
    split; [exact W |].
    split; [rewrite W; apply write2file_returns |].
    split.
    + unfold calls. rewrite W.
      fold (calls (write2file ("local - " ++ label p_state ++ p_val)) w).
      now apply write2file_calls.
    + intros R. rewrite W.
      now destruct (write2file_ready _ _ N R) as [-> _].
  - intros P. now apply write_filtered.
  - intros q v. apply write_filtered. unfold passes. simpl. tauto.
Qed.

Lemma write_emits_iff_witness :
  content (disk (snd (write warn "disk almost full" (configured info true))))
  = "local - [warn]       disk almost full" ++ newline.
Proof.
  assert (E : enumerator warn) by (right; right; left; reflexivity).
  assert (P : warn <> none /\ m_logstate (self (configured info true)) <> none /\
              warn <= m_logstate (self (configured info true)))
    by (vm_compute; repeat split; discriminate).
  assert (R : ready (configured info true)) by (split; reflexivity).
  exact (proj2 (proj2 (proj2
           (proj1 (proj2 (write_emits_iff (configured info true) warn
                            "disk almost full" E)) P))) R).
Defined.

(** C2, as stated, fails: a write at level [none], which has no label,
    returns without an exception. *)
Lemma write_unlabelled_returns :
  ~ labelled none /\
  write none "boom" (configured info true) = (Ok tt, configured info true).
Proof.
  split; [| reflexivity].
  unfold labelled, none, error, warn, info. lia.
Qed.

(** C2, amended.  A level without a label makes [write] throw the
    runtime exception of [logformat] exactly when the level passes the
    severity filter; the exception leaves the very call, before any call
    on the file stream, and the world is as it was.  A level that the
    filter stops makes [write] return. *)
Theorem write_invalid_severity (w : world) (p_state : logstate) (p_val : string) :
  ~ labelled p_state ->
  (passes (m_logstate (self w)) p_state ->
     write p_state p_val w = (Throw (runtime "log state is unkown"), w)) /\
  (~ passes (m_logstate (self w)) p_state ->
     write p_state p_val w = (Ok tt, w)).
Proof.
  intros L. split; intros P.
  - now apply write_throws.
  - now apply write_filtered.
Qed.

Lemma write_invalid_severity_witness :
  write 4 "boom" (configured 5 true)
  = (Throw (runtime "log state is unkown"), configured 5 true).
Proof.
  assert (L : ~ labelled 4) by (unfold labelled, error, warn, info; lia).
  apply (proj1 (write_invalid_severity (configured 5 true) 4 "boom" L)).
  vm_compute. repeat split; discriminate.
Defined.

(** C3, as stated, fails: with the threshold at [info], writing the empty
    message at level [info] appends 22 bytes to an empty file. *)
Lemma write_empty_message_appends :
  labelled info /\
  content (disk (configured info true)) = "" /\
  content (disk (snd (write info "" (configured info true))))
  = "local - [info]       " ++ newline.
Proof. split; [right; right; reflexivity | split; reflexivity]. Qed.

(** C3, amended.  For a level with a label, [write] of the empty message
    is a no-op only when the filter stops the level.  When the level
    passes, the line handed to the sink is the origin and the padded
    label, which is not empty, so the sink writes it: the stream is
    called, and a ready stream leaves the line and a newline in the
    file. *)
Theorem write_empty_message (w : world) (p_state : logstate) :
  labelled p_state ->
  (~ passes (m_logstate (self w)) p_state ->
     write p_state "" w = (Ok tt, w)) /\
  (passes (m_logstate (self w)) p_state ->
     fst (write p_state "" w) = Ok tt /\
     emits (write p_state "") w = true /\
     In (EvPut ("local - " ++ label p_state)) (calls (write p_state "") w) /\
     (ready w ->
        content (disk (snd (write p_state "" w)))
        = content (disk w) ++ "local - " ++ label p_state ++ newline)).
Proof.
  intros L. split; intros P.
  - now apply write_filtered.
  - assert (N : "local - " ++ label p_state ++ "" <> "")
      by apply local_line_not_empty.
    unfold emits, calls. rewrite (write_passes _ "" _ P L).
    split; [apply write2file_returns | split; [now apply write2file_emits |]].
    fold (calls (write2file ("local - " ++ label p_state ++ "")) w).
    rewrite (write2file_calls _ _ N).
    rewrite !append_nil_r in *.
    split.
    + right. apply in_or_app. right. left. reflexivity.
    + intros R. now destruct (write2file_ready _ _ N R) as [-> _].
Qed.

Lemma write_empty_message_witness :
  content (disk (snd (write error "" (configured warn true))))
  = "local - [error]      " ++ newline.
Proof.
  assert (L : labelled error) by (left; reflexivity).
  assert (P : passes (m_logstate (self (configured warn true))) error)
    by (vm_compute; repeat split; discriminate).
  assert (R : ready (configured warn true)) by (split; reflexivity).
  exact (proj2 (proj2 (proj2
           (proj2 (write_empty_message (configured warn true) error L) P))) R).
Defined.

(** C4, as stated, fails: when the file cannot be opened, the append
    returns; no exception reaches the caller. *)
Lemma write2file_open_failure_returns :
  is_open (m_file (self (boot "log.txt" false))) = false /\
  openable (disk (boot "log.txt" false)) = false /\
  fst (write2file "local - [info]       x" (boot "log.txt" false)) = Ok tt.
Proof. repeat split; reflexivity. Qed.

(** C4, amended.  An append of a line that is not empty, on a closed
    stream whose file cannot be opened, returns without an exception;
    [open] is called once in that call; the stream is left closed with
    [failbit] set and the file is as it was. *)
Theorem write2file_open_failure (w : world) (p_data : string) :
  p_data <> "" ->
  is_open (m_file (self w)) = false ->
  openable (disk w) = false ->
  fst (write2file p_data w) = Ok tt /\
  opens (calls (write2file p_data) w) = 1%nat /\
  disk (snd (write2file p_data w)) = disk w /\
  is_open (m_file (self (snd (write2file p_data w)))) = false /\
  failbit (m_file (self (snd (write2file p_data w)))) = true.
Proof.
  intros N C O.
  split; [apply write2file_returns |].
  split; [| now apply write2file_cannot_open].
  rewrite (write2file_calls _ _ N), C. reflexivity.
Qed.

Lemma write2file_open_failure_witness :
  opens (calls (write2file "local - [warn]       x") (boot "log.txt" false)) = 1%nat.
Proof.
  apply (write2file_open_failure (boot "log.txt" false) "local - [warn]       x");
    [discriminate | reflexivity | reflexivity].
Defined.

(** C9.  An append of the empty line returns with the world as it was.
    An append of any other line returns after these calls, in this
    order: the writer mutex is taken, the stream is opened in append
    mode on the logger's file if it is not open, the line and a newline
    are put, the stream is flushed, the mutex is given back.  On a ready
    stream the file then ends with the line and the newline, the buffer
    is empty and the stream is open. *)
Theorem write2file_appends (w : world) (p_data : string) :
  (p_data = "" -> write2file p_data w = (Ok tt, w)) /\
  (p_data <> "" ->
     fst (write2file p_data w) = Ok tt /\
     calls (write2file p_data) w =
       (EvLock m_muxwriter ::
          (if is_open (m_file (self w)) then []
           else [EvOpen (m_filename (self w)) ios_base_app]) ++
          [EvPut p_data; EvPut newline; EvFlush; EvUnlock m_muxwriter])%list /\
     (ready w ->
        content (disk (snd (write2file p_data w)))
        = content (disk w) ++ p_data ++ newline /\
        buffer (m_file (self (snd (write2file p_data w)))) = "" /\
        is_open (m_file (self (snd (write2file p_data w)))) = true)).
Proof.
  split.
  - intros ->. apply write2file_empty.
  - intros N. split; [apply write2file_returns |].
    split; [now apply write2file_calls |].
    intros R. destruct (write2file_ready _ _ N R) as (H1 & H2 & H3 & _).
    now repeat split.
Qed.

Lemma write2file_appends_witness :
  content (disk (snd (write2file "CPU 1 - [info]       hello" (boot "log.txt" true))))
  = "CPU 1 - [info]       hello" ++ newline.
Proof.
  assert (N : "CPU 1 - [info]       hello" <> "") by discriminate.
  assert (R : ready (boot "log.txt" true)) by (split; reflexivity).
  exact (proj1 (proj2 (proj2
           (proj2 (write2file_appends (boot "log.txt" true) _) N)) R)).
Defined.

(** C10.  A level above the threshold, an enumerator or not, makes the
    local [write] return with the world as it was: no exception and no
    call.  An exception of [write] therefore means that the level passed
    the filter, and it is the one of [logformat] for a level without a
    label. *)
Theorem write_filter_before_validation
  (w : world) (p_state : logstate) (p_val : string) :
  (p_state > m_logstate (self w) -> write p_state p_val w = (Ok tt, w)) /\
  (forall e : exception,
     fst (write p_state p_val w) = Throw e ->
     passes (m_logstate (self w)) p_state /\ ~ labelled p_state /\
     e = runtime "log state is unkown").
Proof.
  split.
  - intros G. apply write_filtered. unfold passes. lia.
  - intros e H.
    destruct (passes_dec (m_logstate (self w)) p_state) as [P | P].
    + assert (D : labelled p_state \/ ~ labelled p_state)
        by (unfold labelled, error, warn, info; lia).
      destruct D as [L | L].
      * rewrite (write_passes _ p_val _ P L), write2file_returns in H. discriminate.
      * rewrite (write_throws _ p_val _ P L) in H. simpl in H.
        injection H as <-. split; [exact P | split; [exact L | reflexivity]].
    + rewrite (write_filtered _ p_val _ P) in H. discriminate.
Qed.

Lemma write_filter_before_validation_witness :
  write 4 "boom" (configured warn true) = (Ok tt, configured warn true).
Proof.
  apply (proj1 (write_filter_before_validation (configured warn true) 4 "boom")).
  vm_compute. reflexivity.
Defined.

(** ** The distributed write, case by case *)

Lemma write_mpi_filtered
  (p_mpi : communicator) (p_state : logstate) (p_val : string) (w : world) :
  ~ passes (m_logstate (self w)) p_state ->
  write_mpi p_mpi p_state p_val w = (Ok tt, w).
Proof.
  intros H. apply not_passes_filtered in H.
  unfold write_mpi, bind, this. now rewrite H.
Qed.

Lemma write_mpi_coordinator
  (p_mpi : communicator) (p_state : logstate) (p_val : string) (w : world) :
  passes (m_logstate (self w)) p_state -> labelled p_state -> rank p_mpi = 0 ->
  write_mpi p_mpi p_state p_val w
  = write2file (cpu p_mpi ++ " - " ++ label p_state ++ p_val) w.
Proof.
  intros H L R. apply passes_filtered in H.
  unfold write_mpi, bind, this, lift, cpu. rewrite H.
  rewrite (logformat_labelled _ _ _ L), R. reflexivity.
Qed.

Lemma write_mpi_remote
  (p_mpi : communicator) (p_state : logstate) (p_val : string) (w : world) :
  passes (m_logstate (self w)) p_state -> labelled p_state -> rank p_mpi <> 0 ->
  write_mpi p_mpi p_state p_val w
  = (Ok tt, sent w 0 LOGGER_MPI_TAG (cpu p_mpi ++ " - " ++ label p_state ++ p_val)).
Proof.
  intros H L R. apply passes_filtered in H. apply Z.eqb_neq in R.
  unfold write_mpi, bind, this, lift, cpu, emit, sent. rewrite H.
  rewrite (logformat_labelled _ _ _ L), R.
  now rewrite !append_assoc.
Qed.

Lemma cpu_line_not_empty (p_mpi : communicator) (p_state : logstate) (p_val : string) :
  cpu p_mpi ++ " - " ++ label p_state ++ p_val <> "".
Proof. discriminate. Qed.

Lemma sent_calls {A} (c : M A) (w : world) (o : outcome A)
  (dest tag : Z) (payload : string) :
  c w = (o, sent w dest tag payload) -> calls c w = [EvIsend dest tag payload].
Proof. intros H. apply calls_of_trace. now rewrite H. Qed.

(** ** Claims on the format and on the distributed calls *)

(** C5, as stated, fails: the line that [write] hands to the sink, and
    that the file receives, for the text [x] at level [info] has seven
    blanks after the label, so it is not the line of the stated shape. *)
Lemma line_is_padded :
  In (EvPut "local - [info]       x") (calls (write info "x") (configured info true)) /\
  content (disk (snd (write info "x" (configured info true))))
  = "local - [info]       x" ++ newline /\
  "local - [info]       x" <> spec_line "local" (level_name info) "x".
Proof.
  split; [vm_compute; tauto |].
  split; [reflexivity | discriminate].
Qed.

(** C5, amended.  A write at a level with a label that passes the filter
    produces the line [<origin> - <label><text>]: the origin is [local]
    for the local write and [CPU <rank>] for the distributed one, and
    the label is the bracketed level name followed by blanks up to 13
    characters.  The local write and the coordinator put that line on
    the stream, and a ready stream leaves it in the file with a newline;
    any other rank sends that line to rank 0. *)
Theorem line_shape
  (w : world) (p_mpi : communicator) (p_state : logstate) (p_val : string) :
  labelled p_state ->
  passes (m_logstate (self w)) p_state ->
  label p_state
  = "[" ++ level_name p_state ++ "]"
    ++ blanks (11 - String.length (level_name p_state)) /\
  String.length (label p_state) = 13%nat /\
  In (EvPut ("local" ++ " - " ++ label p_state ++ p_val))
     (calls (write p_state p_val) w) /\
  (ready w ->
     content (disk (snd (write p_state p_val w)))
     = content (disk w) ++ ("local" ++ " - " ++ label p_state ++ p_val) ++ newline) /\
  (rank p_mpi = 0 ->
     In (EvPut (cpu p_mpi ++ " - " ++ label p_state ++ p_val))
        (calls (write_mpi p_mpi p_state p_val) w) /\
     (ready w ->
        content (disk (snd (write_mpi p_mpi p_state p_val w)))
        = content (disk w)
          ++ (cpu p_mpi ++ " - " ++ label p_state ++ p_val) ++ newline)) /\
  (rank p_mpi <> 0 ->
     calls (write_mpi p_mpi p_state p_val) w
     = [EvIsend 0 LOGGER_MPI_TAG (cpu p_mpi ++ " - " ++ label p_state ++ p_val)]).
Proof.
  intros L P.
  split; [destruct L as [-> | [-> | ->]]; reflexivity |].
  split; [destruct L as [-> | [-> | ->]]; reflexivity |].
  assert (put_in : forall d, d <> "" -> In (EvPut d) (calls (write2file d) w)).
  { intros d N. rewrite (write2file_calls _ _ N).
    right. apply in_or_app. right. left. reflexivity. }
  split; [| split; [| split]].
  - unfold calls. rewrite (write_passes _ p_val _ P L).
    apply (put_in _ (local_line_not_empty p_state p_val)).
  - intros R. rewrite (write_passes _ p_val _ P L).
    now destruct (write2file_ready _ _ (local_line_not_empty p_state p_val) R) as [-> _].
  - intros Z0. split.
    + unfold calls. rewrite (write_mpi_coordinator _ _ p_val _ P L Z0).
      apply (put_in _ (cpu_line_not_empty p_mpi p_state p_val)).
    + intros R. rewrite (write_mpi_coordinator _ _ p_val _ P L Z0).
      now destruct (write2file_ready _ _ (cpu_line_not_empty p_mpi p_state p_val) R)
        as [-> _].
  - intros NZ. eapply sent_calls. now apply write_mpi_remote.
Qed.

Lemma line_shape_witness :
  calls (write_mpi {| rank := 2; size := 4 |} warn "low memory") (configured info true)
  = [EvIsend 0 LOGGER_MPI_TAG "CPU 2 - [warn]       low memory"].
Proof.
  assert (L : labelled warn) by (right; left; reflexivity).
  assert (P : passes (m_logstate (self (configured info true))) warn)
    by (vm_compute; repeat split; discriminate).
  apply (proj2 (proj2 (proj2 (proj2 (proj2
           (line_shape (configured info true) {| rank := 2; size := 4 |}
              warn "low memory" L P)))))).
  simpl. discriminate.
Defined.

(** C6.  For a level that is one of the enumerators, the distributed
    [write] applies the filter first: a message it stops makes the call
    return with the world as it was, so nothing is sent and the stream is
    not called.  A message that passes is formatted with the origin
    [CPU <rank>]; on rank 0 the call is the append of that line to the
    file sink, with no send; on any other rank the call makes one
    [isend] of the line to rank 0 under [LOGGER_MPI_TAG], calls nothing
    else, neither the stream nor a wait on the request, and returns. *)
Theorem write_mpi_routes
  (w : world) (p_mpi : communicator) (p_state : logstate) (p_val : string) :
  enumerator p_state ->
  (~ passes (m_logstate (self w)) p_state ->
     write_mpi p_mpi p_state p_val w = (Ok tt, w)) /\
  (passes (m_logstate (self w)) p_state -> rank p_mpi = 0 ->
     write_mpi p_mpi p_state p_val w
     = write2file (cpu p_mpi ++ " - " ++ label p_state ++ p_val) w /\
     emits (write_mpi p_mpi p_state p_val) w = true /\
     existsb network_io (calls (write_mpi p_mpi p_state p_val) w) = false) /\
  (passes (m_logstate (self w)) p_state -> rank p_mpi <> 0 ->
     write_mpi p_mpi p_state p_val w
     = (Ok tt, sent w 0 LOGGER_MPI_TAG (cpu p_mpi ++ " - " ++ label p_state ++ p_val)) /\
     calls (write_mpi p_mpi p_state p_val) w
     = [EvIsend 0 LOGGER_MPI_TAG (cpu p_mpi ++ " - " ++ label p_state ++ p_val)] /\
     emits (write_mpi p_mpi p_state p_val) w = false).
Proof.
  intros E. split; [| split].
  - apply write_mpi_filtered.
  - intros P Z0.
    assert (L : labelled p_state) by (apply labelled_enumerator; [exact E | apply P]).
    pose proof (write_mpi_coordinator p_mpi p_state p_val w P L Z0) as H.
    split; [exact H |].
    unfold emits, calls. rewrite H.
    fold (calls (write2file (cpu p_mpi ++ " - " ++ label p_state ++ p_val)) w).
    split; [apply write2file_emits, cpu_line_not_empty |].
    rewrite (write2file_calls _ _ (cpu_line_not_empty p_mpi p_state p_val)).
    simpl. rewrite existsb_app.
    destruct (is_open (m_file (self w))); reflexivity.
  - intros P NZ.
    assert (L : labelled p_state) by (apply labelled_enumerator; [exact E | apply P]).
    pose proof (write_mpi_remote p_mpi p_state p_val w P L NZ) as H.
    split; [exact H |].
    unfold emits. rewrite (sent_calls _ _ _ _ _ _ H).
    split; reflexivity.
Qed.

Lemma write_mpi_routes_witness :
  write_mpi {| rank := 3; size := 4 |} info "hello from rank 3" (configured info true)
  = (Ok tt, sent (configured info true) 0 999 "CPU 3 - [info]       hello from rank 3").
Proof.
  assert (E : enumerator info) by (right; right; right; reflexivity).
  assert (P : passes (m_logstate (self (configured info true))) info)
    by (vm_compute; repeat split; discriminate).
  assert (NZ : rank {| rank := 3; size := 4 |} <> 0) by (simpl; discriminate).
  exact (proj1 (proj2 (proj2
           (write_mpi_routes (configured info true) {| rank := 3; size := 4 |}
              info "hello from rank 3" E)) P NZ)).
Defined.

(** C7.  On a process that is not rank 0, or in a job of one process, or
    when the flag says that a listener runs, [startListener] returns
    without an exception after the barrier and nothing else: the logger
    and the file are as before and the trace has grown by the barrier
    only, so no mutex is taken, the flag is not stored and no thread is
    created. *)
Theorem startListener_noop (w : world) (p_mpi : communicator) :
  rank p_mpi <> 0 \/ size p_mpi = 1 \/ m_listenerrunnging (self w) = true ->
  startListener p_mpi w
  = (Ok tt, {| self := self w; disk := disk w;
               trace := trace w ++ [EvBarrier] |}) /\
  calls (startListener p_mpi) w = [EvBarrier].
Proof.
  intros H.
  assert (G : negb (rank p_mpi =? 0) || (size p_mpi =? 1)
              || m_listenerrunnging (self w) = true).
  { rewrite !orb_true_iff, negb_true_iff, Z.eqb_neq, Z.eqb_eq. tauto. }
  assert (R : startListener p_mpi w
              = (Ok tt, {| self := self w; disk := disk w;
                           trace := trace w ++ [EvBarrier] |})).
  { unfold startListener, bind, emit, this, ret. simpl. now rewrite G. }
  split; [exact R |].
  apply calls_of_trace. now rewrite R.
Qed.

Lemma startListener_noop_witness :
  calls (startListener {| rank := 0; size := 1 |}) (configured info true) = [EvBarrier].
Proof.
  apply (proj2 (startListener_noop (configured info true) {| rank := 0; size := 1 |}
                  (or_intror (or_introl eq_refl)))).
Defined.

(** ** Shutdown against the listener thread *)

Lemma shutdown_calls_coordinator (p_mpi : communicator) (w : world) :
  rank p_mpi = 0 ->
  shutdown_calls p_mpi w
  = [EvSetRunning false; EvBarrier; EvLock m_muxfinalize; EvUnlock m_muxfinalize].
Proof.
  intros R. unfold shutdown_calls, shutdownListener, store_running,
    bind, emit, this, set_self, ret. simpl. rewrite R. simpl.
  repeat rewrite <- app_assoc. apply skipn_prefix.
Qed.

Lemma shutdown_calls_elsewhere (p_mpi : communicator) (w : world) :
  rank p_mpi <> 0 ->
  shutdown_calls p_mpi w = [EvSetRunning false; EvBarrier].
Proof.
  intros R. apply Z.eqb_neq in R.
  unfold shutdown_calls, shutdownListener, store_running,
    bind, emit, this, set_self, ret. simpl. rewrite R. simpl.
  repeat rewrite <- app_assoc. apply skipn_prefix.
Qed.

Lemma write2file_keeps_flag (p_data : string) (w : world) :
  m_listenerrunnging (self (snd (write2file p_data w)))
  = m_listenerrunnging (self w).
Proof.
  destruct p_data as [|c d]; [reflexivity |].
  destruct w as [[fn ls [o fb buf] run] [can ct] tr].
  unfold_sink; simpl. destruct o, can, fb; reflexivity.
Qed.

Lemma listener_step_held (s s' : system) :
  listener_step s = Some s' ->
  held_or_exited s ->
  held_or_exited s' /\
  caller_todo s' = caller_todo s /\
  m_listenerrunnging (self (sys_world s')) = m_listenerrunnging (self (sys_world s)).
Proof.
  unfold held_or_exited, listener_step.
  destruct s as [w o ib todo pc]; simpl.
  intros E [[L O] | [L O]]; subst; simpl in *.
  - destruct pc; simpl in *; try discriminate.
    + destruct (m_listenerrunnging (self w)) eqn:F; injection E as <-; simpl;
        rewrite ?F; auto.
    + destruct ib; injection E as <-; simpl; auto.
    + destruct ib as [|m ib]; [discriminate |]. injection E as <-. simpl.
      rewrite write2file_keeps_flag. auto.
    + injection E as <-; simpl; auto.
    + injection E as <-; simpl; auto.
  - discriminate.
Qed.

Lemma listener_step_exited (s : system) :
  listener s = LsExit -> listener_step s = None.
Proof. unfold listener_step. now intros ->. Qed.

Lemma joining_exec (a : action) (s s' : system) :
  joining s -> exec a s = Some s' -> joining s'.
Proof.
  intros J E. destruct a as [[|] | m]; simpl in E.
  - (* the caller moves *)
    unfold joining, caller_step in *.
    destruct J as [[T H] | [[T [H F]] | [[T [H F]] | [[T [L [O F]]] | [T _]]]]];
      rewrite T in E.
    + injection E as <-. simpl. right; left. auto.
    + injection E as <-. simpl. right; right; left. auto.
    + destruct H as [[L O] | [L O]]; rewrite O in E; [discriminate |].
      injection E as <-. simpl. right; right; right; left. auto.
    + injection E as <-. simpl. right; right; right; right. auto.
    + discriminate.
  - (* the listener moves *)
    unfold joining in *.
    destruct J as [[T H] | [[T [H F]] | [[T [H F]] | [[T [L [O F]]] | [T [L _]]]]]].
    + destruct (listener_step_held _ _ E H) as (H' & T' & _).
      left. rewrite T'. auto.
    + destruct (listener_step_held _ _ E H) as (H' & T' & F').
      right; left. rewrite T', F'. auto.
    + destruct (listener_step_held _ _ E H) as (H' & T' & F').
      right; right; left. rewrite T', F'. auto.
    + rewrite (listener_step_exited _ L) in E. discriminate.
    + rewrite (listener_step_exited _ L) in E. discriminate.
  - (* a message arrives *)
    injection E as <-. exact J.
Qed.

Lemma joining_run (sched : list action) (s s' : system) :
  joining s -> run sched s = Some s' -> joining s'.
Proof.
  revert s. induction sched as [|a sched IH]; simpl; intros s J E.
  - injection E as <-. exact J.
  - destruct (exec a s) as [s1 |] eqn:X; [| discriminate].
    apply (IH s1); [now apply (joining_exec a s) | exact E].
Qed.




(** * Further properties of the logger *)

(** ** The threshold orders the levels *)

Lemma emits_iff_passes (w : world) (p_state : logstate) (p_val : string) :
  enumerator p_state ->
  emits (write p_state p_val) w = true <-> passes (m_logstate (self w)) p_state.
Proof.
  intros E.
  destruct (passes_dec (m_logstate (self w)) p_state) as [P | P].
  - assert (L : labelled p_state)
      by (apply labelled_enumerator; [exact E | apply P]).
    unfold emits, calls. rewrite (write_passes _ p_val _ P L).
    split; [intros _; exact P | intros _].
    apply write2file_emits, local_line_not_empty.
  - unfold emits. rewrite (calls_unchanged _ _ _ (write_filtered _ p_val _ P)).
    simpl. split; [discriminate | tauto].
Qed.

(** X1.  A message that is written under a threshold is written under every
    higher threshold, and where a level is written every more severe
    level with a label is written too. *)
Theorem threshold_is_monotone
  (w : world) (p_state q : logstate) (threshold threshold' : logstate)
  (p_val v : string) :
  enumerator p_state ->
  emits (write p_state p_val) (snd (setLevel threshold w)) = true ->
  (threshold <= threshold' ->
     emits (write p_state p_val) (snd (setLevel threshold' w)) = true) /\
  (labelled q -> q <= p_state ->
     emits (write q v) (snd (setLevel threshold w)) = true).
Proof.
  intros E H.
  apply (emits_iff_passes _ _ _ E) in H. simpl in H.
  destruct H as (N & T & L).
  assert (P1 : 1 <= p_state)
    by (unfold enumerator, none, error, warn, info in *; lia).
  split.
  - intros G. apply (emits_iff_passes _ _ _ E). simpl.
    unfold passes, none in *. repeat split; lia.
  - intros Lq Q.
    assert (Eq : enumerator q) by (unfold enumerator; tauto).
    apply (emits_iff_passes _ _ _ Eq). simpl.
    unfold passes, labelled, none, error, warn, info in *. repeat split; lia.
Qed.

Lemma threshold_is_monotone_witness :
  emits (write warn "low memory") (snd (setLevel info (boot "log.txt" true))) = true /\
  emits (write error "no memory") (snd (setLevel warn (boot "log.txt" true))) = true.
Proof.
  assert (E : enumerator warn) by (right; right; left; reflexivity).
  assert (H : emits (write warn "low memory")
                (snd (setLevel warn (boot "log.txt" true))) = true)
    by reflexivity.
  destruct (threshold_is_monotone (boot "log.txt" true) warn error warn info
              "low memory" "no memory" E H) as [A B].
  split.
  - apply A. unfold warn, info. lia.
  - apply B; [left; reflexivity | unfold error, warn; lia].
Defined.

(** ** Lines written one after the other *)

Lemma write2file_extends (p_data : string) (w : world) :
  trace (snd (write2file p_data w))
  = (trace w ++ calls (write2file p_data) w)%list.
Proof.
  destruct p_data as [|c d].
  - rewrite write2file_empty. unfold calls. simpl.
    rewrite skipn_whole. now rewrite app_nil_r.
  - assert (N : String c d <> "") by discriminate.
    now rewrite (write2file_calls _ _ N), (write2file_trace _ _ N).
Qed.

Lemma write2file_stays_ready (p_data : string) (w : world) :
  ready w -> ready (snd (write2file p_data w)).
Proof.
  intros R. destruct p_data as [|c d]; [exact R |].
  assert (N : String c d <> "") by discriminate.
  destruct (write2file_ready _ _ N R) as (_ & B & O & F).
  unfold ready. rewrite B, O. split; [reflexivity | exact F].
Qed.

Lemma write2file_persists (p_data : string) (w : world) :
  ready w ->
  content (disk (snd (write2file p_data w)))
  = content (disk w) ++ (if empty p_data then "" else p_data ++ newline).
Proof.
  intros R. destruct p_data as [|c d].
  - rewrite write2file_empty. simpl. now rewrite append_nil_r.
  - assert (N : String c d <> "") by discriminate.
    now destruct (write2file_ready _ _ N R) as (-> & _).
Qed.

Lemma opens_app (a b : list event) : opens (a ++ b) = (opens a + opens b)%nat.
Proof. unfold opens. now rewrite filter_app, length_app. Qed.

Lemma write2file_opens (p_data : string) (w : world) :
  opens (calls (write2file p_data) w)
  = if is_open (m_file (self w)) || empty p_data then 0%nat else 1%nat.
Proof.
  destruct p_data as [|c d].
  - rewrite (calls_unchanged _ _ _ (write2file_empty w)).
    now rewrite orb_true_r.
  - assert (N : String c d <> "") by discriminate.
    rewrite (write2file_calls _ _ N).
    destruct (is_open (m_file (self w))); reflexivity.
Qed.

Lemma each_write2file_run (ls : list string) (w : world) :
  ready w ->
  fst (each write2file ls w) = Ok tt /\
  ready (snd (each write2file ls w)) /\
  content (disk (snd (each write2file ls w))) = content (disk w) ++ persisted ls /\
  exists es : list event,
    trace (snd (each write2file ls w)) = (trace w ++ es)%list /\
    opens es = if is_open (m_file (self w)) || forallb empty ls then 0%nat else 1%nat.
Proof.
  revert w. induction ls as [|l ls IH]; intros w R.
  - simpl. split; [reflexivity |]. split; [exact R |].
    split; [now rewrite append_nil_r |].
    exists []. rewrite app_nil_r, orb_true_r. split; reflexivity.
  - simpl each. unfold bind.
    pose proof (write2file_returns l w) as Hr.
    destruct (write2file l w) as [o w1] eqn:W. simpl in Hr. subst o.
    assert (W1 : w1 = snd (write2file l w)) by now rewrite W.
    assert (R1 : ready w1) by (rewrite W1; now apply write2file_stays_ready).
    destruct (IH w1 R1) as (A & B & C & es & D & F).
    split; [exact A |]. split; [exact B |]. split.
    + rewrite C, W1, (write2file_persists _ _ R). simpl persisted.
      now rewrite !append_assoc.
    + exists (calls (write2file l) w ++ es)%list. split.
      * rewrite D, W1, write2file_extends. now rewrite app_assoc.
      * rewrite opens_app, F, write2file_opens. simpl forallb.
        destruct (is_open (m_file (self w))) eqn:O.
        -- simpl. destruct l as [|c d].
           ++ rewrite W1, write2file_empty. simpl. now rewrite O.
           ++ assert (N : String c d <> "") by discriminate.
              rewrite W1.
              destruct (write2file_ready _ _ N R) as (_ & _ & -> & _).
              reflexivity.
        -- simpl. destruct l as [|c d].
           ++ rewrite W1, write2file_empty. simpl. now rewrite O.
           ++ assert (N : String c d <> "") by discriminate.
              rewrite W1.
              destruct (write2file_ready _ _ N R) as (_ & _ & -> & _).
              reflexivity.
Qed.

(** X2.  Lines appended one after the other through a ready stream all
    return; the file grows by exactly the lines that are not empty, each
    with its newline, in the order of the calls; and the file is opened
    once, by the first line that is not empty when the stream was closed,
    and never again. *)
Theorem appends_in_order (ls : list string) (w : world) :
  ready w ->
  fst (each write2file ls w) = Ok tt /\
  content (disk (snd (each write2file ls w))) = content (disk w) ++ persisted ls /\
  opens (calls (each write2file ls) w)
  = (if is_open (m_file (self w)) || forallb empty ls then 0%nat else 1%nat) /\
  ready (snd (each write2file ls w)).
Proof.
  intros R. destruct (each_write2file_run ls w R) as (A & B & C & es & D & F).
  split; [exact A |]. split; [exact C |]. split; [| exact B].
  now rewrite (calls_of_trace _ _ _ D).
Qed.

Lemma appends_in_order_witness :
  content (disk (snd (each write2file ["first"; ""; "second"] (boot "log.txt" true))))
  = "first" ++ newline ++ "second" ++ newline /\
  opens (calls (each write2file ["first"; ""; "second"]) (boot "log.txt" true)) = 1%nat.
Proof.
  assert (R : ready (boot "log.txt" true)) by (split; reflexivity).
  destruct (appends_in_order ["first"; ""; "second"] (boot "log.txt" true) R)
    as (_ & C & O & _).
  split; [exact C | exact O].
Defined.

(** ** Logging leaves the configuration alone *)

Lemma labelled_dec (p_state : logstate) : labelled p_state \/ ~ labelled p_state.
Proof. unfold labelled, error, warn, info. lia. Qed.

Lemma write2file_frame (p_data : string) (w : world) :
  same_configuration w (snd (write2file p_data w)).
Proof.
  unfold same_configuration.
  destruct p_data as [|c d]; [now repeat split |].
  destruct w as [[fn ls [o fb buf] run] [can ct] tr].
  unfold_sink; simpl. destruct o, can, fb; now repeat split.
Qed.

Lemma same_configuration_refl (w : world) : same_configuration w w.
Proof. unfold same_configuration. now repeat split. Qed.

Lemma write_cases (p_state : logstate) (p_val : string) (w : world) :
  write p_state p_val w = (Ok tt, w) \/
  write p_state p_val w = (Throw (runtime "log state is unkown"), w) \/
  write p_state p_val w = write2file ("local - " ++ label p_state ++ p_val) w.
Proof.
  destruct (passes_dec (m_logstate (self w)) p_state) as [P | P].
  - destruct (labelled_dec p_state) as [L | L].
    + right; right. now apply write_passes.
    + right; left. now apply write_throws.
  - left. now apply write_filtered.
Qed.

Lemma write_mpi_throws
  (p_mpi : communicator) (p_state : logstate) (p_val : string) (w : world) :
  passes (m_logstate (self w)) p_state -> ~ labelled p_state ->
  write_mpi p_mpi p_state p_val w = (Throw (runtime "log state is unkown"), w).
Proof.
  intros H L. apply passes_filtered in H.
  unfold write_mpi, bind, this, lift. rewrite H.
  now rewrite (logformat_unlabelled _ _ _ L).
Qed.

Lemma write_mpi_cases
  (p_mpi : communicator) (p_state : logstate) (p_val : string) (w : world) :
  write_mpi p_mpi p_state p_val w = (Ok tt, w) \/
  write_mpi p_mpi p_state p_val w = (Throw (runtime "log state is unkown"), w) \/
  write_mpi p_mpi p_state p_val w
  = write2file (cpu p_mpi ++ " - " ++ label p_state ++ p_val) w \/
  write_mpi p_mpi p_state p_val w
  = (Ok tt, sent w 0 LOGGER_MPI_TAG (cpu p_mpi ++ " - " ++ label p_state ++ p_val)).
Proof.
  destruct (passes_dec (m_logstate (self w)) p_state) as [P | P].
  - destruct (labelled_dec p_state) as [L | L].
    + destruct (Z.eq_dec (rank p_mpi) 0) as [R | R].
      * right; right; left. now apply write_mpi_coordinator.
      * right; right; right. now apply write_mpi_remote.
    + right; left. now apply write_mpi_throws.
  - left. now apply write_mpi_filtered.
Qed.

(** X3.  Whatever the level, the text and the state of the stream, a local or
    a distributed write leaves the file name, the threshold and the
    listener flag as they were, and a local write sends nothing. *)
Theorem logging_keeps_configuration
  (w : world) (p_mpi : communicator) (p_state : logstate) (p_val : string) :
  same_configuration w (snd (write p_state p_val w)) /\
  same_configuration w (snd (write_mpi p_mpi p_state p_val w)) /\
  existsb network_io (calls (write p_state p_val) w) = false.
Proof.
  split; [| split].
  - destruct (write_cases p_state p_val w) as [-> | [-> | ->]];
      try apply same_configuration_refl. apply write2file_frame.
  - destruct (write_mpi_cases p_mpi p_state p_val w) as [-> | [-> | [-> | ->]]];
      first [apply same_configuration_refl | apply write2file_frame
            | unfold same_configuration; simpl; tauto].
  - destruct (write_cases p_state p_val w) as [H | [H | H]].
    + now rewrite (calls_unchanged _ _ _ H).
    + now rewrite (calls_unchanged _ _ _ H).
    + unfold calls. rewrite H.
      fold (calls (write2file ("local - " ++ label p_state ++ p_val)) w).
      rewrite (write2file_calls _ _ (local_line_not_empty p_state p_val)).
      simpl. rewrite existsb_app.
      destruct (is_open (m_file (self w))); reflexivity.
Qed.

(** ** A level without a label in the distributed write *)

(** X4.  On every rank, a level without a label makes the distributed [write]
    throw the exception of [logformat] exactly when the level passes the
    filter, and then nothing has been sent and the stream has not been
    called; a level that the filter stops makes the call return. *)
Theorem write_mpi_invalid_severity
  (w : world) (p_mpi : communicator) (p_state : logstate) (p_val : string) :
  ~ labelled p_state ->
  (passes (m_logstate (self w)) p_state ->
     write_mpi p_mpi p_state p_val w = (Throw (runtime "log state is unkown"), w)) /\
  (~ passes (m_logstate (self w)) p_state ->
     write_mpi p_mpi p_state p_val w = (Ok tt, w)).
Proof.
  intros L. split; intros P.
  - now apply write_mpi_throws.
  - now apply write_mpi_filtered.
Qed.

Lemma write_mpi_invalid_severity_witness :
  write_mpi {| rank := 2; size := 4 |} (-1) "boom" (configured info true)
  = (Throw (runtime "log state is unkown"), configured info true).
Proof.
  assert (L : ~ labelled (-1)) by (unfold labelled, error, warn, info; lia).
  apply (proj1 (write_mpi_invalid_severity (configured info true)
                  {| rank := 2; size := 4 |} (-1) "boom" L)).
  vm_compute. repeat split; discriminate.
Defined.

(** ** Starting and stopping, seen by one thread *)

Lemma startListener_starts (w : world) (p_mpi : communicator) :
  may_start p_mpi w = true ->
  startListener p_mpi w
  = (Ok tt, {| self := with_running (self w) true; disk := disk w;
               trace := trace w ++ [EvBarrier; EvLock m_muxlistener;
                                    EvSetRunning true; EvThread;
                                    EvUnlock m_muxlistener] |}).
Proof.
  unfold may_start. rewrite !andb_true_iff, !negb_true_iff.
  intros [[R S] F].
  unfold startListener, store_running, bind, emit, this, set_self, ret. simpl.
  rewrite R, S, F. simpl. repeat rewrite <- app_assoc. reflexivity.
Qed.

Lemma startListener_skips (w : world) (p_mpi : communicator) :
  may_start p_mpi w = false ->
  startListener p_mpi w
  = (Ok tt, {| self := self w; disk := disk w; trace := trace w ++ [EvBarrier] |}).
Proof.
  intros H.
  assert (G : negb (rank p_mpi =? 0) || (size p_mpi =? 1)
              || m_listenerrunnging (self w) = true).
  { unfold may_start in H.
    destruct (rank p_mpi =? 0), (size p_mpi =? 1), (m_listenerrunnging (self w));
      simpl in *; congruence. }
  unfold startListener, bind, emit, this, ret. simpl. now rewrite G.
Qed.

(** X5.  [startListener] enters the barrier once whatever the rank, the size
    of the job and the flag.  It creates a thread when it runs on rank 0
    of a job of more than one process with the flag down, and then the
    flag is up; no thread otherwise.  Called twice in a row it creates as
    many threads as called once: the second call finds the flag up. *)
Theorem startListener_starts_once (w : world) (p_mpi : communicator) :
  barriers (calls (startListener p_mpi) w) = 1%nat /\
  threads (calls (startListener p_mpi) w)
  = (if may_start p_mpi w then 1%nat else 0%nat) /\
  m_listenerrunnging (self (snd (startListener p_mpi w)))
  = may_start p_mpi w || m_listenerrunnging (self w) /\
  threads (calls (startListener p_mpi ;; startListener p_mpi) w)
  = threads (calls (startListener p_mpi) w) /\
  barriers (calls (startListener p_mpi ;; startListener p_mpi) w) = 2%nat.
Proof.
  destruct (may_start p_mpi w) eqn:S.
  - pose proof (startListener_starts w p_mpi S) as H1.
    set (w1 := {| self := with_running (self w) true; disk := disk w;
                  trace := trace w ++ [EvBarrier; EvLock m_muxlistener;
                                       EvSetRunning true; EvThread;
                                       EvUnlock m_muxlistener] |}) in *.
    assert (S1 : may_start p_mpi w1 = false)
      by (unfold may_start, w1; simpl; now rewrite andb_false_r).
    pose proof (startListener_skips w1 p_mpi S1) as H2.
    assert (C1 : calls (startListener p_mpi) w
                 = [EvBarrier; EvLock m_muxlistener; EvSetRunning true;
                    EvThread; EvUnlock m_muxlistener])
      by (apply calls_of_trace; now rewrite H1).
    assert (C2 : calls (startListener p_mpi ;; startListener p_mpi) w
                 = [EvBarrier; EvLock m_muxlistener; EvSetRunning true;
                    EvThread; EvUnlock m_muxlistener; EvBarrier]).
    { apply calls_of_trace. unfold bind. rewrite H1, H2. simpl.
      now rewrite <- app_assoc. }
    rewrite C1, C2, H1. now repeat split.
  - pose proof (startListener_skips w p_mpi S) as H1.
    set (w1 := {| self := self w; disk := disk w;
                  trace := trace w ++ [EvBarrier] |}) in *.
    assert (S1 : may_start p_mpi w1 = false) by exact S.
    pose proof (startListener_skips w1 p_mpi S1) as H2.
    assert (C1 : calls (startListener p_mpi) w = [EvBarrier])
      by (apply calls_of_trace; now rewrite H1).
    assert (C2 : calls (startListener p_mpi ;; startListener p_mpi) w
                 = [EvBarrier; EvBarrier]).
    { apply calls_of_trace. unfold bind. rewrite H1, H2. simpl.
      now rewrite <- app_assoc. }
    rewrite C1, C2, H1. now repeat split.
Qed.

Lemma shutdownListener_result (w : world) (p_mpi : communicator) :
  shutdownListener p_mpi w
  = (Ok tt, {| self := with_running (self w) false; disk := disk w;
               trace := trace w ++ shutdown_calls p_mpi w |}).
Proof.
  destruct (Z.eq_dec (rank p_mpi) 0) as [R | R].
  - rewrite (shutdown_calls_coordinator _ _ R).
    unfold shutdownListener, store_running, bind, emit, this, set_self, ret.
    simpl. rewrite R. simpl. repeat rewrite <- app_assoc. reflexivity.
  - rewrite (shutdown_calls_elsewhere _ _ R). apply Z.eqb_neq in R.
    unfold shutdownListener, store_running, bind, emit, this, set_self, ret.
    simpl. rewrite R. simpl. repeat rewrite <- app_assoc. reflexivity.
Qed.

(** The two threads can always finish. *)

Lemma run_app (a b : list action) (s : system) :
  run (a ++ b) s
  = match run a s with
    | Some s1 => run b s1
    | None => None
    end.
Proof.
  revert s. induction a as [|x a IH]; intros s; [reflexivity |].
  cbn [app run]. destruct (exec x s); [apply IH | reflexivity].
Qed.

Lemma probed_exec (a : action) (s s' : system) :
  exec a s = Some s' -> probed s -> probed s'.
Proof.
  unfold probed. destruct s as [w o ib todo pc].
  destruct a as [[|] | m]; cbn [exec].
  - unfold caller_step. cbn [caller_todo finalize_owner].
    destruct todo as [|e rest]; [discriminate |].
    destruct e as [x | x | | | | b | | |]; try discriminate.
    + destruct x; try discriminate. destruct o; [discriminate |].
      intros E; injection E as <-. exact (fun H => H).
    + destruct x; try discriminate.
      intros E; injection E as <-. exact (fun H => H).
    + intros E; injection E as <-. exact (fun H => H).
    + intros E; injection E as <-. exact (fun H => H).
  - unfold listener_step. cbn [listener finalize_owner inbox sys_world].
    destruct pc.
    + destruct o; [discriminate |]. intros E; injection E as <-. discriminate.
    + destruct (m_listenerrunnging (self w)); intros E; injection E as <-;
        discriminate.
    + destruct ib; intros E; injection E as <-; cbn; [discriminate |].
      intros _ _. discriminate.
    + destruct ib; [discriminate |]. intros E; injection E as <-. discriminate.
    + intros E; injection E as <-. discriminate.
    + intros E; injection E as <-. discriminate.
    + discriminate.
  - intros E; injection E as <-. cbn. intros H X.
    destruct ib; [discriminate |]. discriminate.
Qed.

Lemma probed_run (sched : list action) (s s' : system) :
  probed s -> run sched s = Some s' -> probed s'.
Proof.
  revert s. induction sched as [|a sched IH]; cbn [run]; intros s P E.
  - injection E as <-. exact P.
  - destruct (exec a s) as [s1 |] eqn:X; [| discriminate].
    apply (IH s1); [now apply (probed_exec a s) | exact E].
Qed.

Lemma inner_loop_leaves (ms : list string) (s : system) :
  inbox s = ms -> listener s = LsProbe ->
  exists s' : system,
    run (listener_alone (2 * List.length ms + 1)) s = Some s' /\
    listener s' = LsYield /\
    m_listenerrunnging (self (sys_world s'))
    = m_listenerrunnging (self (sys_world s)) /\
    caller_todo s' = caller_todo s /\ finalize_owner s' = finalize_owner s.
Proof.
  revert s. induction ms as [|m ms IH]; intros [w o ib todo pc] I L;
    simpl in I, L; subst.
  - eexists. split; [reflexivity |]. now repeat split.
  - change (List.length (m :: ms)) with (S (List.length ms)).
    unfold listener_alone.
    replace (2 * S (List.length ms) + 1)%nat
      with (S (S (2 * List.length ms + 1))) by lia.
    cbn [repeat run exec listener_step listener inbox at_pc sys_world
         finalize_owner caller_todo].
    destruct (IH {| sys_world := snd (write2file m w); finalize_owner := o;
                    inbox := ms; caller_todo := todo; listener := LsProbe |}
                eq_refl eq_refl) as (s' & A & B & F & G & H).
    exists s'. split; [exact A |]. split; [exact B |].
    split; [| split; [exact G | exact H]].
    rewrite F. cbn [sys_world]. apply write2file_keeps_flag.
Qed.

Lemma listener_leaves_yield (s : system) :
  listener s = LsYield ->
  m_listenerrunnging (self (sys_world s)) = false ->
  exists s' : system,
    run (listener_alone 3) s = Some s' /\
    listener s' = LsExit /\ finalize_owner s' = None /\
    caller_todo s' = caller_todo s.
Proof.
  destruct s as [w o ib todo pc]; cbn [listener sys_world]. intros -> F.
  unfold listener_alone.
  cbn [repeat run exec listener_step listener at_pc sys_world].
  rewrite F. eexists. split; [reflexivity |]. now repeat split.
Qed.

Lemma listener_leaves_probe (s : system) :
  listener s = LsProbe ->
  m_listenerrunnging (self (sys_world s)) = false ->
  exists (n : nat) (s' : system),
    run (listener_alone n) s = Some s' /\
    listener s' = LsExit /\ finalize_owner s' = None /\
    caller_todo s' = caller_todo s.
Proof.
  intros L F.
  destruct (inner_loop_leaves (inbox s) s eq_refl L) as (s1 & A & B & F1 & G & H).
  rewrite F in F1.
  destruct (listener_leaves_yield s1 B F1) as (s2 & A2 & B2 & C2 & D2).
  exists (2 * List.length (inbox s) + 1 + 3)%nat, s2.
  split; [| split; [exact B2 | split; [exact C2 | congruence]]].
  unfold listener_alone in *. rewrite repeat_app, run_app, A. exact A2.
Qed.

Lemma listener_leaves (s : system) :
  in_loop (listener s) = true -> probed s ->
  m_listenerrunnging (self (sys_world s)) = false ->
  exists (n : nat) (s' : system),
    run (listener_alone n) s = Some s' /\
    listener s' = LsExit /\ finalize_owner s' = None /\
    caller_todo s' = caller_todo s.
Proof.
  intros L P F. destruct (listener s) eqn:PC; try discriminate.
  - (* at the test of the outer loop *)
    destruct s as [w o ib todo pc]; cbn [listener sys_world] in *. subst.
    exists 2%nat. unfold listener_alone.
    cbn [repeat run exec listener_step listener at_pc sys_world].
    rewrite F. eexists. split; [reflexivity |]. now repeat split.
  - now apply listener_leaves_probe.
  - (* at the receive *)
    pose proof (P PC) as NE.
    destruct s as [w o ib todo pc]; cbn [listener sys_world inbox] in *. subst.
    destruct ib as [|m ib]; [congruence |].
    destruct (listener_leaves_probe
                {| sys_world := snd (write2file m w); finalize_owner := o;
                   inbox := ib; caller_todo := todo; listener := LsProbe |}
                eq_refl) as (n & s' & A & B).
    { cbn [sys_world]. now rewrite write2file_keeps_flag. }
    exists (S n), s'. split; [| exact B].
    unfold listener_alone in *. cbn [repeat run exec listener_step listener inbox].
    exact A.
  - destruct (listener_leaves_yield s PC F) as (s' & A & B).
    exists 3%nat, s'. now split.
  - destruct s as [w o ib todo pc]; cbn [listener sys_world] in *. subst.
    exists 1%nat. eexists. split; [reflexivity |]. now repeat split.
Qed.

Lemma caller_takes_the_lock (s : system) :
  caller_todo s = [EvLock m_muxfinalize; EvUnlock m_muxfinalize] ->
  listener s = LsExit -> finalize_owner s = None ->
  exists s' : system,
    run [Sched Caller; Sched Caller] s = Some s' /\
    caller_todo s' = [] /\ listener s' = LsExit.
Proof.
  destruct s as [w o ib todo pc]; cbn [caller_todo listener finalize_owner].
  intros -> -> ->. eexists. split; [reflexivity |]. now split.
Qed.

Lemma joining_completes (s : system) :
  joining s -> probed s ->
  exists (sched : list action) (s' : system),
    run sched s = Some s' /\ caller_todo s' = [] /\ listener s' = LsExit.
Proof.
  assert (from_lock : forall s1 : system,
            caller_todo s1 = [EvLock m_muxfinalize; EvUnlock m_muxfinalize] ->
            held_or_exited s1 ->
            m_listenerrunnging (self (sys_world s1)) = false ->
            probed s1 ->
            exists (sched : list action) (s' : system),
              run sched s1 = Some s' /\ caller_todo s' = [] /\ listener s' = LsExit).
  { intros s1 T [[L O] | [L O]] F P.
    - destruct (listener_leaves s1 L P F) as (n & s2 & A & B & C & D).
      rewrite T in D.
      destruct (caller_takes_the_lock s2 D B C) as (s3 & A3 & B3).
      exists (listener_alone n ++ [Sched Caller; Sched Caller])%list, s3.
      split; [| exact B3]. now rewrite run_app, A.
    - destruct (caller_takes_the_lock s1 T L O) as (s3 & A3 & B3).
      now exists [Sched Caller; Sched Caller], s3. }
  intros J P.
  destruct J as [[T H] | [[T [H F]] | [[T [H F]] | [[T [L [O F]]] | [T [L _]]]]]].
  - destruct s as [w o ib todo pc]; cbn [caller_todo] in T; subst todo.
    destruct (from_lock
                {| sys_world := set_running w false; finalize_owner := o;
                   inbox := ib;
                   caller_todo := [EvLock m_muxfinalize; EvUnlock m_muxfinalize];
                   listener := pc |} eq_refl H eq_refl P)
      as (sched & s' & A & B).
    exists (Sched Caller :: Sched Caller :: sched), s'. now split.
  - destruct s as [w o ib todo pc]; cbn [caller_todo] in T; subst todo.
    destruct (from_lock
                {| sys_world := w; finalize_owner := o; inbox := ib;
                   caller_todo := [EvLock m_muxfinalize; EvUnlock m_muxfinalize];
                   listener := pc |} eq_refl H F P)
      as (sched & s' & A & B).
    exists (Sched Caller :: sched), s'. now split.
  - now apply from_lock.
  - destruct s as [w o ib todo pc];
      cbn [caller_todo listener finalize_owner] in *; subst.
    exists [Sched Caller]. eexists. split; [reflexivity |]. now split.
  - exists [], s. now repeat split.
Qed.

(** X6.  On every rank and in every state of the logger [shutdownListener]
    makes the same calls: the flag is stored as false, the barrier is
    entered once, [m_muxfinalize] is locked on rank 0 and on no other
    rank; the threshold, the stream and the file are left as they were
    and the flag is down, so that a [startListener] that follows on rank
    0 of a job of more than one process creates a thread again.  Next to
    the listener thread the call on rank 0 cannot be blocked for good:
    if the listener holds [m_muxfinalize] or has left when the call
    begins, then from every state that the two threads and the arrivals
    can reach there is a continuation after which [shutdownListener] has
    returned and the listener has left. *)
Theorem shutdownListener_resets (w : world) (p_mpi : communicator) :
  barriers (calls (shutdownListener p_mpi) w) = 1%nat /\
  (In (EvLock m_muxfinalize) (calls (shutdownListener p_mpi) w) <-> rank p_mpi = 0) /\
  self (snd (shutdownListener p_mpi w)) = with_running (self w) false /\
  disk (snd (shutdownListener p_mpi w)) = disk w /\
  (rank p_mpi = 0 -> size p_mpi <> 1 ->
     threads (calls (startListener p_mpi) (snd (shutdownListener p_mpi w))) = 1%nat) /\
  (forall (s0 s : system) (sched : list action),
     rank p_mpi = 0 ->
     caller_todo s0 = shutdown_calls p_mpi w ->
     held_or_exited s0 -> probed s0 ->
     run sched s0 = Some s ->
     exists (sched' : list action) (s' : system),
       run sched' s = Some s' /\ caller_todo s' = [] /\ listener s' = LsExit).
Proof.
  pose proof (shutdownListener_result w p_mpi) as H.
  assert (C : calls (shutdownListener p_mpi) w = shutdown_calls p_mpi w)
    by (apply calls_of_trace; now rewrite H).
  rewrite C, H. cbn [snd self disk].
  assert (Live : forall (s0 s : system) (sched : list action),
            rank p_mpi = 0 ->
            caller_todo s0 = shutdown_calls p_mpi w ->
            held_or_exited s0 -> probed s0 ->
            run sched s0 = Some s ->
            exists (sched' : list action) (s' : system),
              run sched' s = Some s' /\ caller_todo s' = [] /\ listener s' = LsExit).
  { intros s0 s sched R T Hd P E.
    rewrite (shutdown_calls_coordinator _ w R) in T.
    assert (J0 : joining s0) by (left; now split).
    apply joining_completes.
    - exact (joining_run sched s0 s J0 E).
    - exact (probed_run sched s0 s P E). }
  destruct (Z.eq_dec (rank p_mpi) 0) as [R | R].
  - rewrite (shutdown_calls_coordinator _ w R).
    split; [reflexivity |]. split; [simpl; tauto |].
    split; [reflexivity |]. split; [reflexivity |].
    split; [| intros s0 s sched R0 T; apply (Live s0 s sched R0);
               now rewrite (shutdown_calls_coordinator _ w R0)].
    intros _ S.
    erewrite calls_of_trace; [| rewrite startListener_starts; [reflexivity |]].
    + reflexivity.
    + unfold may_start. simpl.
      apply Z.eqb_eq in R. apply Z.eqb_neq in S. now rewrite R, S.
  - rewrite (shutdown_calls_elsewhere _ w R).
    split; [reflexivity |]. split.
    + simpl. split; [intros [X | [X | []]]; discriminate | intros X; contradiction].
    + split; [reflexivity |]. split; [reflexivity |].
      split; [intros X; contradiction | intros s0 s sched R0; contradiction].
Qed.

Lemma shutdownListener_resets_witness :
  threads (calls (startListener coordinator)
             (snd (shutdownListener coordinator started))) = 1%nat /\
  exists (sched' : list action) (s' : system),
    run sched' (deliver "CPU 1 - [info]       hello"
                  (at_pc (listening coordinator started) LsProbe)) = Some s' /\
    caller_todo s' = [] /\ listener s' = LsExit.
Proof.
  destruct (shutdownListener_resets started coordinator)
    as (_ & _ & _ & _ & Again & Live).
  split.
  - apply Again; [reflexivity | simpl; discriminate].
  - apply (Live (listening coordinator started) _
             [Sched Listener; Arrive "CPU 1 - [info]       hello"]).
    + reflexivity.
    + reflexivity.
    + left. split; reflexivity.
    + intros X. discriminate X.
    + reflexivity.
Defined.

(** ** What the listener does with the messages *)

Lemma persisted_app (a b : list string) :
  persisted (a ++ b) = persisted a ++ persisted b.
Proof.
  induction a as [|x a IH]; simpl; [reflexivity |].
  now rewrite IH, append_assoc.
Qed.

Lemma caller_step_leaves_file (s s' : system) :
  caller_step s = Some s' ->
  inbox s' = inbox s /\
  disk (sys_world s') = disk (sys_world s) /\
  m_file (self (sys_world s')) = m_file (self (sys_world s)).
Proof.
  unfold caller_step. destruct s as [w o ib todo pc]; simpl.
  destruct todo as [|e rest]; [discriminate |].
  destruct e as [m | m | | | | b | | |]; try discriminate.
  - destruct m; try discriminate.
    destruct o; [discriminate |]. intros E; injection E as <-. now repeat split.
  - destruct m; try discriminate.
    intros E; injection E as <-. now repeat split.
  - intros E; injection E as <-. now repeat split.
  - intros E; injection E as <-. now repeat split.
Qed.

Lemma ready_of_file (w w' : world) :
  disk w' = disk w -> m_file (self w') = m_file (self w) -> ready w -> ready w'.
Proof. unfold ready. now intros -> ->. Qed.

Lemma listener_step_persists (s s' : system) :
  listener_step s = Some s' ->
  ready (sys_world s) ->
  ready (sys_world s') /\
  content (disk (sys_world s')) ++ persisted (inbox s')
  = content (disk (sys_world s)) ++ persisted (inbox s).
Proof.
  unfold listener_step. destruct s as [w o ib todo pc]; simpl.
  intros E R. destruct pc; simpl in E.
  - destruct o; [discriminate |]. injection E as <-. now split.
  - destruct (m_listenerrunnging (self w)); injection E as <-; now split.
  - destruct ib; injection E as <-; now split.
  - destruct ib as [|m ib]; [discriminate |]. injection E as <-. simpl.
    split; [now apply write2file_stays_ready |].
    rewrite (write2file_persists _ _ R). now rewrite append_assoc.
  - injection E as <-. now split.
  - injection E as <-. now split.
  - discriminate.
Qed.

Lemma exec_persists (a : action) (s s' : system) :
  exec a s = Some s' ->
  ready (sys_world s) ->
  ready (sys_world s') /\
  content (disk (sys_world s')) ++ persisted (inbox s')
  = content (disk (sys_world s)) ++ persisted (inbox s ++ arrivals [a]).
Proof.
  intros E R. destruct a as [[|] | m]; simpl in E; simpl arrivals.
  - destruct (caller_step_leaves_file _ _ E) as (I & D & F).
    rewrite app_nil_r, I, D. split; [| reflexivity].
    now apply (ready_of_file (sys_world s)).
  - rewrite app_nil_r. now apply listener_step_persists.
  - injection E as <-. simpl. now split.
Qed.

(** X7.  Under every schedule of the two threads and of arrivals, the file
    followed by the messages still in the inbox is the file at the start
    followed by the messages that were in the inbox and those that
    arrived, in that order, each with its newline (an empty message
    leaves nothing).  So the listener forwards the messages in the order
    in which the probe reports them, which here is the order of arrival,
    and loses, repeats or alters none of those it has received. *)
Theorem listener_forwards_in_order (sched : list action) (s0 s : system) :
  ready (sys_world s0) ->
  run sched s0 = Some s ->
  content (disk (sys_world s)) ++ persisted (inbox s)
  = content (disk (sys_world s0)) ++ persisted (inbox s0 ++ arrivals sched) /\
  ready (sys_world s).
Proof.
  revert s0. induction sched as [|a sched IH]; simpl; intros s0 R E.
  - injection E as <-. rewrite app_nil_r. now split.
  - destruct (exec a s0) as [s1 |] eqn:X; [| discriminate].
    destruct (exec_persists _ _ _ X R) as [R1 C1].
    destruct (IH s1 R1 E) as [C R'].
    split; [| exact R'].
    rewrite C, persisted_app, <- append_assoc, C1.
    rewrite !persisted_app, !append_assoc.
    destruct a as [t | m]; simpl; now rewrite ?append_nil_r.
Qed.

Lemma listener_forwards_in_order_witness :
  exists s : system,
    run orderly_shutdown (listening coordinator started) = Some s /\
    content (disk (sys_world s)) ++ persisted (inbox s)
    = "" ++ persisted ["CPU 1 - [info]       hello"].
Proof.
  eexists. split; [vm_compute; reflexivity |].
  apply (fun R E => proj1 (listener_forwards_in_order orderly_shutdown
                             (listening coordinator started) _ R E)).
  - split; reflexivity.
  - vm_compute. reflexivity.
Defined.

Lemma listener_alone_next (n : nat) :
  listener_alone (2 * S n + 1)
  = Sched Listener :: Sched Listener :: listener_alone (2 * n + 1).
Proof.
  unfold listener_alone.
  replace (2 * S n + 1)%nat with (S (S (2 * n + 1))) by lia. reflexivity.
Qed.

Lemma inner_loop_run (ms : list string) (s : system) :
  inbox s = ms -> listener s = LsProbe -> ready (sys_world s) ->
  exists s' : system,
    run (listener_alone (2 * List.length ms + 1)) s = Some s' /\
    listener s' = LsYield /\ inbox s' = [] /\
    content (disk (sys_world s')) = content (disk (sys_world s)) ++ persisted ms /\
    m_listenerrunnging (self (sys_world s'))
    = m_listenerrunnging (self (sys_world s)) /\
    caller_todo s' = caller_todo s /\ finalize_owner s' = finalize_owner s.
Proof.
  revert s. induction ms as [|m ms IH]; intros [w o ib todo pc] I L R;
    simpl in I, L, R; subst.
  - eexists. split; [reflexivity |]. simpl. rewrite append_nil_r. now repeat split.
  - change (List.length (m :: ms)) with (S (List.length ms)).
    rewrite listener_alone_next.
    cbn [run exec listener_step listener inbox at_pc sys_world
         finalize_owner caller_todo].
    set (s1 := {| sys_world := snd (write2file m w); finalize_owner := o;
                  inbox := ms; caller_todo := todo; listener := LsProbe |}).
    destruct (IH s1 eq_refl eq_refl (write2file_stays_ready m w R))
      as (s' & A & B & C & D & F & G & H).
    exists s'. split; [exact A |]. split; [exact B |]. split; [exact C |].
    split; [| split; [| split; [exact G | exact H]]].
    + rewrite D. simpl. rewrite (write2file_persists _ _ R).
      now rewrite append_assoc.
    + rewrite F. simpl. apply write2file_frame.
Qed.

(** X8.  Once the listener has come to its probe, it receives and writes every
    message that is in the inbox before it yields, whether the flag is up
    or down: left alone for two steps a message and one more, it stands
    at the yield with the inbox empty, the file has grown by the
    messages in order, and the flag and the mutex are as they were. *)
Theorem inner_loop_drains (s : system) :
  listener s = LsProbe ->
  ready (sys_world s) ->
  exists s' : system,
    run (listener_alone (2 * List.length (inbox s) + 1)) s = Some s' /\
    listener s' = LsYield /\ inbox s' = [] /\
    content (disk (sys_world s'))
    = content (disk (sys_world s)) ++ persisted (inbox s) /\
    m_listenerrunnging (self (sys_world s'))
    = m_listenerrunnging (self (sys_world s)) /\
    finalize_owner s' = finalize_owner s.
Proof.
  intros L R.
  destruct (inner_loop_run (inbox s) s eq_refl L R)
    as (s' & A & B & C & D & F & _ & H).
  exists s'. now repeat split.
Qed.

Lemma inner_loop_drains_witness :
  exists s' : system,
    run (listener_alone 5)
        (deliver "b" (deliver "a" (at_pc (listening coordinator
                                            (snd (shutdownListener coordinator started)))
                                     LsProbe)))
    = Some s' /\
    inbox s' = [] /\
    content (disk (sys_world s')) = "a" ++ newline ++ "b" ++ newline.
Proof.
  destruct (inner_loop_drains
              (deliver "b" (deliver "a" (at_pc (listening coordinator
                                                  (snd (shutdownListener coordinator started)))
                                           LsProbe))))
    as (s' & A & _ & C & D & _).
  - reflexivity.
  - split; reflexivity.
  - exists s'. split; [exact A |]. split; [exact C | exact D].
Defined.

(** X9.  A message that a rank other than 0 writes at a level with a label
    that passes its own filter is sent as one line; once that line has
    arrived at a listener that probes with an empty inbox and a ready
    stream, two steps of the listener leave in the file exactly that
    line: [CPU <rank> - <label><text>] and a newline.  The threshold of
    the coordinator plays no part: the filter is the sender's. *)
Theorem remote_message_reaches_file
  (sender : world) (p_mpi : communicator) (p_state : logstate) (p_val : string)
  (s : system) :
  labelled p_state ->
  passes (m_logstate (self sender)) p_state ->
  rank p_mpi <> 0 ->
  listener s = LsProbe -> inbox s = [] -> ready (sys_world s) ->
  exists (l_str : string) (s' : system),
    calls (write_mpi p_mpi p_state p_val) sender = [EvIsend 0 LOGGER_MPI_TAG l_str] /\
    run [Arrive l_str; Sched Listener; Sched Listener] s = Some s' /\
    content (disk (sys_world s'))
    = content (disk (sys_world s))
      ++ cpu p_mpi ++ " - " ++ label p_state ++ p_val ++ newline /\
    inbox s' = [] /\ listener s' = LsProbe.
Proof.
  intros L P NZ Hl Hi R. destruct s as [w o ib todo pc].
  simpl in Hl, Hi, R. subst.
  exists (cpu p_mpi ++ " - " ++ label p_state ++ p_val). eexists.
  split; [eapply sent_calls; now apply write_mpi_remote |].
  split; [reflexivity |]. cbn [sys_world inbox listener at_pc deliver].
  split; [| now split].
  destruct (write2file_ready _ _ (cpu_line_not_empty p_mpi p_state p_val) R)
    as (-> & _).
  now rewrite !append_assoc.
Qed.

Lemma remote_message_reaches_file_witness :
  exists (l_str : string) (s' : system),
    calls (write_mpi {| rank := 3; size := 4 |} info "hello from rank 3")
      (configured info true)
    = [EvIsend 0 LOGGER_MPI_TAG l_str] /\
    run [Arrive l_str; Sched Listener; Sched Listener]
        (at_pc (listening coordinator (boot "log.txt" true)) LsProbe) = Some s' /\
    content (disk (sys_world s'))
    = "CPU 3 - [info]       hello from rank 3" ++ newline.
Proof.
  assert (L : labelled info) by (right; right; reflexivity).
  assert (P : passes (m_logstate (self (configured info true))) info)
    by (vm_compute; repeat split; discriminate).
  assert (NZ : rank {| rank := 3; size := 4 |} <> 0) by (simpl; discriminate).
  assert (R : ready (sys_world (at_pc (listening coordinator (boot "log.txt" true))
                                  LsProbe)))
    by (split; reflexivity).
  destruct (remote_message_reaches_file (configured info true)
              {| rank := 3; size := 4 |} info "hello from rank 3"
              (at_pc (listening coordinator (boot "log.txt" true)) LsProbe)
              L P NZ eq_refl eq_refl R)
    as (l_str & s' & A & B & C & _).
  exists l_str, s'. split; [exact A |]. split; [exact B | exact C].
Defined.

(** ** Reading a line back *)

Lemma append_cancel_l (a b c : string) : a ++ b = a ++ c -> b = c.
Proof.
  induction a as [|x a IH]; simpl; intros H; [exact H |].
  injection H as H. exact (IH H).
Qed.

Lemma logformat_ok (p_state : logstate) (p_val p_stream l : string) :
  logformat p_state p_val p_stream = Ok l ->
  labelled p_state /\ l = p_stream ++ label p_state ++ p_val.
Proof.
  intros H. destruct (labelled_dec p_state) as [L | L].
  - rewrite (logformat_labelled _ _ _ L) in H. injection H as <-. now split.
  - rewrite (logformat_unlabelled _ _ _ L) in H. discriminate.
Qed.

Lemma label_decodes (p_state q : logstate) (v v' : string) :
  labelled p_state -> labelled q ->
  label p_state ++ v = label q ++ v' -> p_state = q /\ v = v'.
Proof.
  unfold labelled, error, warn, info.
  intros [-> | [-> | ->]] [-> | [-> | ->]]; simpl; intros H;
    try discriminate; injection H as <-; now split.
Qed.

Lemma no_blank_split (a b x y : string) :
  no_blank a = true -> no_blank b = true ->
  a ++ String " " x = b ++ String " " y -> a = b /\ x = y.
Proof.
  revert b. induction a as [|c a IH]; intros [|d b]; simpl.
  - intros _ _ H. injection H as <-. now split.
  - rewrite andb_true_iff, negb_true_iff. intros _ [D _] H.
    injection H as <- _. now rewrite Ascii.eqb_refl in D.
  - rewrite andb_true_iff, negb_true_iff. intros [C _] _ H.
    injection H as -> _. now rewrite Ascii.eqb_refl in C.
  - rewrite !andb_true_iff. intros [_ A] [_ B] H.
    injection H as -> H. destruct (IH b A B H) as [-> ->]. now split.
Qed.

Lemma no_blank_uint (d : Decimal.uint) :
  no_blank (NilEmpty.string_of_uint d) = true.
Proof. induction d; simpl; auto. Qed.

Lemma no_blank_show_int (n : Z) : no_blank (show_int n) = true.
Proof.
  unfold show_int. destruct (Z.to_int n) as [d | d]; simpl.
  - destruct d; try apply (no_blank_uint (_ d)); reflexivity.
  - destruct d; try apply (no_blank_uint (_ d)); reflexivity.
Qed.

Lemma to_int_not_nil (n : Z) :
  Z.to_int n <> Decimal.Pos Decimal.Nil /\ Z.to_int n <> Decimal.Neg Decimal.Nil.
Proof.
  destruct n as [|p|p]; simpl; split; try discriminate;
    intros H; injection H as H;
    exact (DecimalPos.Unsigned.to_uint_nonnil p H).
Qed.

Lemma show_int_inj (n n' : Z) : show_int n = show_int n' -> n = n'.
Proof.
  unfold show_int. intros H. apply DecimalZ.to_int_inj.
  destruct (to_int_not_nil n) as [A B]. destruct (to_int_not_nil n') as [A' B'].
  pose proof (NilZero.isi _ A B) as I. pose proof (NilZero.isi _ A' B') as I'.
  rewrite H in I. rewrite I in I'. now injection I'.
Qed.

(** X10.  A line can be read back.  Two calls of [logformat] on one stream that
    return the same line had the same level and the same text; and two
    lines of the distributed write that are equal come from the same
    rank, level and text, the levels being ones with a label. *)
Theorem line_decodes
  (p_mpi p_mpi' : communicator) (p_state q : logstate) (v v' p_stream l : string) :
  (logformat p_state v p_stream = Ok l -> logformat q v' p_stream = Ok l ->
     p_state = q /\ v = v') /\
  (labelled p_state -> labelled q ->
     cpu p_mpi ++ " - " ++ label p_state ++ v
     = cpu p_mpi' ++ " - " ++ label q ++ v' ->
     rank p_mpi = rank p_mpi' /\ p_state = q /\ v = v').
Proof.
  split.
  - intros H H'.
    destruct (logformat_ok _ _ _ _ H) as [L E].
    destruct (logformat_ok _ _ _ _ H') as [L' E'].
    rewrite E in E'. apply append_cancel_l in E'.
    now apply label_decodes.
  - intros L L' H. unfold cpu in H. rewrite !append_assoc in H.
    apply append_cancel_l in H.
    change (" - " ++ label p_state ++ v)
      with (String " " ("- " ++ label p_state ++ v)) in H.
    change (" - " ++ label q ++ v')
      with (String " " ("- " ++ label q ++ v')) in H.
    destruct (no_blank_split _ _ _ _ (no_blank_show_int _) (no_blank_show_int _) H)
      as [R T].
    apply show_int_inj in R. apply (append_cancel_l "- ") in T.
    destruct (label_decodes _ _ _ _ L L' T) as [-> ->]. now repeat split.
Qed.

Lemma line_decodes_witness :
  rank {| rank := 12; size := 16 |} = rank {| rank := 12; size := 32 |} /\
  warn = warn /\ "low memory" = "low memory".
Proof.
  apply (proj2 (line_decodes {| rank := 12; size := 16 |} {| rank := 12; size := 32 |}
                  warn warn "low memory" "low memory" "" "")).
  - right; left; reflexivity.
  - right; left; reflexivity.
  - reflexivity.
Defined.

(** ** The instance *)

Lemma getInstance_times_kept (filename : string) (n : nat) (p : nat) (objs : list logger) :
  getInstance_times filename n {| m_instance := Some p; objects := objs |}
  = (repeat (Some p) n, {| m_instance := Some p; objects := objs |}).
Proof.
  induction n as [|n IH]; [reflexivity |].
  cbn [getInstance_times]. unfold getInstance. cbn [m_instance].
  now rewrite IH.
Qed.

(** X11.  Calls of [getInstance] one after the other create one logger, at the
    first call, and all return it: it has the threshold [none], a closed
    stream and the flag down.  Once an instance exists, further calls
    return it and change nothing, so what has been set on it stays. *)
Theorem getInstance_creates_once
  (filename : string) (n : nat) (p : nat) (objs : list logger) :
  getInstance_times filename (S n) {| m_instance := None; objects := [] |}
  = (repeat (Some 0%nat) (S n),
     {| m_instance := Some 0%nat; objects := [logger_new filename] |}) /\
  getInstance_times filename n {| m_instance := Some p; objects := objs |}
  = (repeat (Some p) n, {| m_instance := Some p; objects := objs |}).
Proof.
  split; [| apply getInstance_times_kept].
  cbn [getInstance_times]. unfold getInstance, new_instance.
  cbn [m_instance objects List.length app].
  now rewrite getInstance_times_kept.
Qed.

Ltac race_cases sched H :=
  destruct sched as [|[|] sched]; cbn in H;
  [ injection H as <-
  | try discriminate H; try race_cases sched H
  | try discriminate H; try race_cases sched H ].

(** X12.  [getInstance] is not safe for two threads.  Whatever the
    interleaving of two threads that both call it while no instance
    exists, when both have returned either one logger has been created
    and both hold it, or two loggers have been created, [m_instance]
    points to one of them and at least one thread holds that one; and
    there is an interleaving, both threads testing before either stores,
    after which the two threads hold different loggers. *)
Theorem getInstance_races (filename : string) :
  (forall (sched : list bool) (r : racing) (p1 p2 : option nat),
     race filename sched race_start = Some r ->
     first r = GiDone p1 -> second r = GiDone p2 ->
     (objects (shared r) = [logger_new filename] /\
      p1 = Some 0%nat /\ p2 = Some 0%nat) \/
     (objects (shared r) = [logger_new filename; logger_new filename] /\
      (m_instance (shared r) = Some 0%nat \/ m_instance (shared r) = Some 1%nat) /\
      (p1 = m_instance (shared r) \/ p2 = m_instance (shared r)))) /\
  (exists r : racing,
     race filename [true; false; true; true; true; false; false; false] race_start
     = Some r /\
     first r = GiDone (Some 0%nat) /\ second r = GiDone (Some 1%nat) /\
     objects (shared r) = [logger_new filename; logger_new filename]).
Proof.
  split.
  - intros sched r p1 p2 H. unfold race_start in H.
    race_cases sched H; cbn; intros F S; try discriminate;
      injection F as <-; injection S as <-; cbn; tauto.
  - eexists. split; [reflexivity |]. cbn. now repeat split.
Qed.

Lemma getInstance_races_witness :
  exists r : racing,
    race "log.txt" [true; false; true; false; true; false; true; false] race_start
    = Some r /\
    objects (shared r) = [logger_new "log.txt"; logger_new "log.txt"] /\
    first r = GiDone (Some 1%nat) /\ second r = GiDone (Some 1%nat).
Proof.
  eexists. split; [reflexivity |].
  destruct (proj1 (getInstance_races "log.txt")
              [true; false; true; false; true; false; true; false] _ _ _
              eq_refl eq_refl eq_refl) as [[X _] | [X _]].
  - discriminate X.
  - split; [exact X | split; reflexivity].
Defined.

End logger.

(** * Properties of the word histogram *)

Module histogram_facts.
Import textprocess.

(** ** Wrap-around *)

Lemma wrap_lt (n : N) : (size_t_wrap n < 2 ^ 64)%N.
Proof. apply N.mod_lt, N.pow_nonzero. discriminate. Qed.

Lemma wrap_small (n : N) : (n < 2 ^ 64)%N -> size_t_wrap n = n.
Proof. apply N.mod_small. Qed.

Lemma wrap_add_l (a b : N) : size_t_wrap (size_t_wrap a + b) = size_t_wrap (a + b).
Proof. apply N.Div0.add_mod_idemp_l. Qed.

Lemma wrap_add_r (a b : N) : size_t_wrap (a + size_t_wrap b) = size_t_wrap (a + b).
Proof. apply N.Div0.add_mod_idemp_r. Qed.

Lemma wrap_wrap (a : N) : size_t_wrap (size_t_wrap a) = size_t_wrap a.
Proof. apply wrap_small, wrap_lt. Qed.

(** ** The map *)

Lemma find_insert_same (key : string) (v : N) (m : map) :
  find key m = None -> find key (insert key v m) = Some v.
Proof.
  induction m as [|[k n] m IH]; simpl.
  - intros _. now rewrite String.eqb_refl.
  - destruct (String.eqb_spec key k) as [E | E]; [discriminate |]. intros H.
    destruct (String.compare key k) eqn:C.
    + apply String.compare_eq_iff in C. contradiction.
    + simpl. now rewrite String.eqb_refl.
    + simpl. destruct (String.eqb_spec key k); [contradiction |]. now apply IH.
Qed.

Lemma find_insert_other (key key' : string) (v : N) (m : map) :
  key' <> key -> find key' (insert key v m) = find key' m.
Proof.
  intros D. induction m as [|[k n] m IH]; simpl.
  - destruct (String.eqb_spec key' key); [contradiction | reflexivity].
  - destruct (String.compare key k) eqn:C; simpl.
    + apply String.compare_eq_iff in C. subst k.
      destruct (String.eqb_spec key' key); [contradiction | reflexivity].
    + destruct (String.eqb_spec key' key); [contradiction | reflexivity].
    + now rewrite IH.
Qed.

Lemma find_increment_same (key : string) (n : N) (m : map) :
  find key m = Some n ->
  find key (increment key m) = Some (size_t_wrap (n + 1)).
Proof.
  induction m as [|[k c] m IH]; simpl; [discriminate |].
  destruct (String.eqb_spec key k) as [E | E].
  - intros H. injection H as ->. simpl. now rewrite E, String.eqb_refl.
  - intros H. simpl. destruct (String.eqb_spec key k); [contradiction |].
    now apply IH.
Qed.

Lemma find_increment_other (key key' : string) (m : map) :
  key' <> key -> find key' (increment key m) = find key' m.
Proof.
  intros D. induction m as [|[k c] m IH]; simpl; [reflexivity |].
  destruct (String.eqb_spec key k) as [<- | E]; simpl.
  - destruct (String.eqb_spec key' key); [contradiction | reflexivity].
  - now rewrite IH.
Qed.

Lemma count_store (key lc : string) (m : map) :
  count key (store lc m)
  = if String.eqb key lc then size_t_wrap (count key m + 1) else count key m.
Proof.
  unfold store, count. destruct (find lc m) as [n |] eqn:F.
  - destruct (String.eqb_spec key lc) as [-> | D].
    + now rewrite (find_increment_same _ _ _ F), F.
    + now rewrite (find_increment_other _ _ _ D).
  - destruct (String.eqb_spec key lc) as [-> | D].
    + now rewrite (find_insert_same _ _ _ F), F.
    + now rewrite (find_insert_other _ _ _ _ D).
Qed.

Lemma find_store_none (key lc : string) (m : map) :
  find key (store lc m) = None <-> key <> lc /\ find key m = None.
Proof.
  unfold store. destruct (find lc m) as [n |] eqn:F.
  - destruct (String.eqb_spec key lc) as [-> | D].
    + rewrite (find_increment_same _ _ _ F), F. split; [discriminate | tauto].
    + rewrite (find_increment_other _ _ _ D). tauto.
  - destruct (String.eqb_spec key lc) as [-> | D].
    + rewrite (find_insert_same _ _ _ F). split; [discriminate | tauto].
    + rewrite (find_insert_other _ _ _ _ D). tauto.
Qed.

Lemma total_insert (key : string) (v : N) (m : map) :
  find key m = None -> total (insert key v m) = (v + total m)%N.
Proof.
  induction m as [|[k n] m IH]; simpl; [reflexivity |].
  destruct (String.eqb_spec key k) as [E | E]; [discriminate |]. intros H.
  destruct (String.compare key k) eqn:C; simpl.
  - apply String.compare_eq_iff in C. contradiction.
  - reflexivity.
  - rewrite (IH H). lia.
Qed.

Lemma total_increment (key : string) (n : N) (m : map) :
  find key m = Some n ->
  size_t_wrap (total (increment key m)) = size_t_wrap (total m + 1).
Proof.
  induction m as [|[k c] m IH]; simpl; [discriminate |].
  destruct (String.eqb_spec key k) as [E | E]; simpl.
  - intros _. rewrite wrap_add_l. f_equal; lia.
  - intros H. rewrite <- wrap_add_r, (IH H), wrap_add_r. f_equal; lia.
Qed.

Lemma total_store (lc : string) (m : map) :
  size_t_wrap (total (store lc m)) = size_t_wrap (total m + 1).
Proof.
  unfold store. destruct (find lc m) as [n |] eqn:F.
  - now apply (total_increment _ n).
  - rewrite (total_insert _ _ _ F). f_equal; lia.
Qed.

Lemma range_store (lc : string) (m : map) :
  Forall (fun e => (snd e < 2 ^ 64)%N) m ->
  Forall (fun e => (snd e < 2 ^ 64)%N) (store lc m).
Proof.
  assert (One : (1 < 2 ^ 64)%N) by reflexivity.
  unfold store. intros H. destruct (find lc m) as [n |].
  - induction H as [|[k c] m Hc Hm IH]; simpl; [constructor |].
    destruct (String.eqb lc k); constructor; simpl; auto using wrap_lt.
  - induction H as [|[k c] m Hc Hm IH]; simpl.
    + constructor; [exact One | constructor].
    + destruct (String.compare lc k).
      * constructor; [exact One | exact Hm].
      * constructor; [exact One | constructor; assumption].
      * constructor; assumption.
Qed.

Lemma count_in_range (key : string) (m : map) :
  Forall (fun e => (snd e < 2 ^ 64)%N) m -> (count key m < 2 ^ 64)%N.
Proof.
  unfold count. induction 1 as [|[k c] m Hc Hm IH]; simpl; [reflexivity |].
  destruct (String.eqb key k); [exact Hc | exact IH].
Qed.

(** ** Lower case *)

Lemma to_lower_char_idem (c : ascii) :
  to_lower_char (to_lower_char c) = to_lower_char c.
Proof. destruct c as [[] [] [] [] [] [] [] []]; reflexivity. Qed.

Lemma to_lower_idem (w : string) : to_lower (to_lower w) = to_lower w.
Proof.
  induction w as [|c w IH]; simpl; [reflexivity |].
  now rewrite to_lower_char_idem, IH.
Qed.

Lemma to_lower_length (w : string) : String.length (to_lower w) = String.length w.
Proof. induction w as [|c w IH]; simpl; [reflexivity | now rewrite IH]. Qed.

Lemma keys_increment (key : string) (m : map) : keys (increment key m) = keys m.
Proof.
  induction m as [|[k n] m IH]; [reflexivity |].
  cbn [increment]. destruct (String.eqb key k); cbn [keys List.map fst];
    [reflexivity |].
  f_equal. exact IH.
Qed.

Lemma in_keys_insert (k key : string) (v : N) (m : map) :
  In k (keys (insert key v m)) -> k = key \/ In k (keys m).
Proof.
  induction m as [|[k2 n2] m IH]; cbn [insert].
  - intros [<- | []]. now left.
  - destruct (String.compare key k2); cbn [keys List.map fst In].
    + tauto.
    + intros [<- | H]; [now left | now right].
    + intros [<- | H]; [right; now left |].
      destruct (IH H); [now left | right; now right].
Qed.

Lemma in_keys_store (k lc : string) (m : map) :
  In k (keys (store lc m)) -> k = lc \/ In k (keys m).
Proof.
  unfold store. destruct (find lc m).
  - rewrite keys_increment. now right.
  - apply in_keys_insert.
Qed.

(** ** Words stored one by one *)

Lemma store_words_flags (ws : list string) (h : histogram) :
  m_seperators (store_words ws h) = m_seperators h /\
  m_casesensitive (store_words ws h) = m_casesensitive h.
Proof.
  revert h. induction ws as [|w ws IH]; intros h; [now split |].
  cbn [store_words fold_left]. destruct (IH (store_word h w)) as [A B].
  unfold store_words in *. rewrite A, B. now split.
Qed.

Lemma store_words_wordcount (ws : list string) (h : histogram) :
  size_t_wrap (m_wordcount (store_words ws h))
  = size_t_wrap (m_wordcount h + N.of_nat (List.length ws)).
Proof.
  revert h. induction ws as [|w ws IH]; intros h.
  - cbn. f_equal; lia.
  - cbn [store_words fold_left]. unfold store_words in IH. rewrite IH.
    cbn [store_word m_wordcount]. rewrite wrap_add_l. f_equal; cbn [List.length]; lia.
Qed.

Lemma occurrences_cons (key w : string) (ws : list string) :
  occurrences key (w :: ws)
  = ((if String.eqb key w then 1 else 0) + occurrences key ws)%N.
Proof.
  unfold occurrences. cbn [filter]. destruct (String.eqb key w); cbn [List.length]; lia.
Qed.

Lemma store_words_count (key : string) (ws : list string) (h : histogram) :
  size_t_wrap (count key (m_map (store_words ws h)))
  = size_t_wrap (count key (m_map h) + occurrences key ws).
Proof.
  revert h. induction ws as [|w ws IH]; intros h.
  - cbn. f_equal; unfold occurrences; cbn; lia.
  - cbn [store_words fold_left]. unfold store_words in IH. rewrite IH.
    cbn [store_word m_map]. rewrite count_store, occurrences_cons.
    destruct (String.eqb key w).
    + rewrite wrap_add_l. f_equal; lia.
    + f_equal; lia.
Qed.

Lemma store_words_find_none (key : string) (ws : list string) (h : histogram) :
  find key (m_map (store_words ws h)) = None <->
  find key (m_map h) = None /\ occurrences key ws = 0%N.
Proof.
  revert h. induction ws as [|w ws IH]; intros h.
  - cbn. unfold occurrences. cbn. tauto.
  - cbn [store_words fold_left]. unfold store_words in IH. rewrite IH.
    cbn [store_word m_map]. rewrite find_store_none, occurrences_cons.
    destruct (String.eqb_spec key w) as [E | E]; split.
    + tauto.
    + intros [_ H]. lia.
    + tauto.
    + intros [A B]. repeat split; [exact E | exact A | lia].
Qed.

Lemma store_words_total (ws : list string) (h : histogram) :
  size_t_wrap (total (m_map (store_words ws h)))
  = size_t_wrap (total (m_map h) + N.of_nat (List.length ws)).
Proof.
  revert h. induction ws as [|w ws IH]; intros h.
  - cbn. f_equal; lia.
  - cbn [store_words fold_left]. unfold store_words in IH. rewrite IH.
    cbn [store_word m_map]. rewrite <- wrap_add_l, total_store, wrap_add_l.
    f_equal; cbn [List.length]; lia.
Qed.

Lemma store_words_range (ws : list string) (h : histogram) :
  in_range h -> in_range (store_words ws h).
Proof.
  revert h. induction ws as [|w ws IH]; intros h R; [exact R |].
  cbn [store_words fold_left]. apply IH. destruct R as [_ R].
  split; cbn [store_word m_wordcount m_map]; [apply wrap_lt | now apply range_store].
Qed.

Lemma store_words_lower (ws : list string) (h : histogram) :
  Forall lower ws -> Forall lower (keys (m_map h)) ->
  Forall lower (keys (m_map (store_words ws h))).
Proof.
  revert h. induction ws as [|w ws IH]; intros h W K; [exact K |].
  cbn [store_words fold_left]. inversion W as [|? ? Lw Lws]; subst.
  apply IH; [exact Lws |]. cbn [store_word m_map].
  rewrite Forall_forall in *. intros k X.
  destruct (in_keys_store _ _ _ X) as [-> | Y]; [exact Lw | now apply K].
Qed.

Lemma store_words_app (a b : list string) (h : histogram) :
  store_words (a ++ b) h = store_words b (store_words a h).
Proof. apply fold_left_app. Qed.

(** ** [add] stores the words it counts *)

Lemma add_tokens_store (p_minlen : N) (tokens : list string) (h : histogram) :
  fold_left (add_token p_minlen) tokens h
  = store_words
      (List.map (stored (m_casesensitive h)) (filter (long_enough p_minlen) tokens)) h.
Proof.
  revert h. induction tokens as [|t ts IH]; intros h; [reflexivity |].
  cbn [fold_left filter]. rewrite IH. unfold add_token, long_enough.
  destruct (N.of_nat (String.length t) <? p_minlen)%N; reflexivity.
Qed.

Lemma add_store (p_text : string) (p_minlen : N) (h : histogram) :
  add p_text p_minlen h = store_words (counted h p_text p_minlen) h.
Proof. apply add_tokens_store. Qed.

Lemma counted_flags (h h' : histogram) (p_text : string) (p_minlen : N) :
  m_seperators h' = m_seperators h -> m_casesensitive h' = m_casesensitive h ->
  counted h' p_text p_minlen = counted h p_text p_minlen.
Proof. unfold counted. now intros -> ->. Qed.

Lemma counted_by_flags (h h' : histogram) (c : call) :
  m_seperators h' = m_seperators h -> m_casesensitive h' = m_casesensitive h ->
  counted_by h' c = counted_by h c.
Proof.
  intros S C. destruct c as [t n | v n]; cbn [counted_by].
  - now apply counted_flags.
  - apply flat_map_ext. intros t. now apply counted_flags.
Qed.

Lemma add_vec_store (p_vec : list string) (p_minlen : N) (h : histogram) :
  add_vec p_vec p_minlen h
  = store_words (flat_map (fun p_text => counted h p_text p_minlen) p_vec) h.
Proof.
  unfold add_vec. revert h. induction p_vec as [|t v IH]; intros h; [reflexivity |].
  cbn [fold_left flat_map]. rewrite store_words_app, IH, add_store.
  destruct (store_words_flags (counted h t p_minlen) h) as [S C].
  f_equal. apply flat_map_ext. intros t'. now apply counted_flags.
Qed.

Lemma perform_store (h : histogram) (c : call) :
  perform h c = store_words (counted_by h c) h.
Proof. destruct c; [apply add_store | apply add_vec_store]. Qed.

Lemma perform_all_store (calls : list call) (h : histogram) :
  fold_left perform calls h = store_words (flat_map (counted_by h) calls) h.
Proof.
  revert h. induction calls as [|c cs IH]; intros h; [reflexivity |].
  cbn [fold_left flat_map]. rewrite store_words_app, IH, perform_store.
  destruct (store_words_flags (counted_by h c) h) as [S C].
  f_equal. apply flat_map_ext. intros c'. now apply counted_by_flags.
Qed.

Lemma new_ok (p_separator : string) (p_casesensitive : bool) (h0 : histogram) :
  new p_separator p_casesensitive = inr h0 ->
  h0 = {| m_seperators := p_separator; m_casesensitive := p_casesensitive;
          m_map := []; m_wordcount := 0%N |}.
Proof.
  unfold new. destruct (empty p_separator); [discriminate |].
  intros H. now injection H.
Qed.

Lemma new_in_range (p_separator : string) (p_casesensitive : bool) (h0 : histogram) :
  new p_separator p_casesensitive = inr h0 -> in_range h0.
Proof.
  intros H. rewrite (new_ok _ _ _ H). split; [reflexivity | constructor].
Qed.

(** ** What a histogram holds *)

(** X13.  A histogram that the constructor returned holds, after any calls of
    the two [add] members, exactly the words those calls counted: the
    word count is their number, the count of a word is the number of
    times it was counted, both wrapped to 64 bits, and a word has an
    entry if and only if it was counted.  The words a call counts are
    the tokens between separators that are not shorter than [p_minlen],
    folded to lower case when [m_casesensitive] is set and as they are
    otherwise. *)
Theorem histogram_counts_words
  (p_separator : string) (p_casesensitive : bool) (h0 : histogram)
  (calls : list call) (key : string) :
  new p_separator p_casesensitive = inr h0 ->
  getWordCount (fold_left perform calls h0)
  = size_t_wrap (N.of_nat (List.length (flat_map (counted_by h0) calls))) /\
  count key (m_map (fold_left perform calls h0))
  = size_t_wrap (occurrences key (flat_map (counted_by h0) calls)) /\
  (find key (m_map (fold_left perform calls h0)) = None <->
   occurrences key (flat_map (counted_by h0) calls) = 0%N).
Proof.
  intros H. pose proof (new_in_range _ _ _ H) as R.
  rewrite perform_all_store.
  set (ws := flat_map (counted_by h0) calls).
  pose proof (store_words_range ws h0 R) as [Rw Rm].
  pose proof (new_ok _ _ _ H) as E.
  split; [| split].
  - unfold getWordCount. rewrite <- (wrap_small _ Rw), store_words_wordcount.
    rewrite E. reflexivity.
  - rewrite <- (wrap_small _ (count_in_range key _ Rm)), store_words_count.
    rewrite E. reflexivity.
  - rewrite store_words_find_none. rewrite E. cbn [m_map find]. tauto.
Qed.

Lemma histogram_counts_words_witness :
  count "the" (m_map (fold_left perform
                        [Add "the cat, the dog" 0; AddVec ["a the"; "b"] 2] default))
  = 3%N.
Proof.
  exact (proj1 (proj2 (histogram_counts_words ",;.:!?- " false default
                         [Add "the cat, the dog" 0; AddVec ["a the"; "b"] 2]
                         "the" eq_refl))).
Defined.

(** X14.  In a histogram that the constructor returned, after any calls of the
    two [add] members, the word count is the sum of the counts of the
    entries, wrapped to 64 bits; every counter is in the range of
    [std::size_t]; and the separators and the case flag are those given
    to the constructor. *)
Theorem histogram_counts_add_up
  (p_separator : string) (p_casesensitive : bool) (h0 : histogram)
  (calls : list call) :
  new p_separator p_casesensitive = inr h0 ->
  getWordCount (fold_left perform calls h0)
  = size_t_wrap (total (m_map (fold_left perform calls h0))) /\
  in_range (fold_left perform calls h0) /\
  m_seperators (fold_left perform calls h0) = p_separator /\
  getCaseSensitivity (fold_left perform calls h0) = p_casesensitive.
Proof.
  intros H. pose proof (new_in_range _ _ _ H) as R.
  rewrite perform_all_store.
  set (ws := flat_map (counted_by h0) calls).
  pose proof (store_words_range ws h0 R) as Rw.
  pose proof (new_ok _ _ _ H) as E.
  split; [| split; [exact Rw |]].
  - unfold getWordCount. rewrite <- (wrap_small _ (proj1 Rw)).
    rewrite store_words_wordcount, store_words_total. rewrite E. reflexivity.
  - unfold getCaseSensitivity.
    destruct (store_words_flags ws h0) as [-> ->]. rewrite E. now split.
Qed.

Lemma histogram_counts_add_up_witness :
  getWordCount (fold_left perform [Add "a b a" 0; Add ",," 0] default)
  = size_t_wrap (total (m_map (fold_left perform [Add "a b a" 0; Add ",," 0] default))).
Proof.
  exact (proj1 (histogram_counts_add_up ",;.:!?- " false default
                  [Add "a b a" 0; Add ",," 0] eq_refl)).
Defined.

(** ** The case flag *)

Lemma counted_lower (h : histogram) (p_text : string) (p_minlen : N) :
  m_casesensitive h = true -> Forall lower (counted h p_text p_minlen).
Proof.
  intros C. unfold counted. rewrite C. apply Forall_forall. intros w X.
  apply in_map_iff in X. destruct X as (t & <- & _). apply to_lower_idem.
Qed.

Lemma counted_by_lower (h : histogram) (c : call) :
  m_casesensitive h = true -> Forall lower (counted_by h c).
Proof.
  intros C. destruct c as [t n | v n]; cbn [counted_by].
  - now apply counted_lower.
  - apply Forall_forall. intros w X. apply in_flat_map in X.
    destruct X as (t & _ & X).
    pose proof (counted_lower h t n C) as F. rewrite Forall_forall in F.
    now apply F.
Qed.

Lemma find_none_of_keys (key : string) (m : map) :
  ~ In key (keys m) -> find key m = None.
Proof.
  induction m as [|[k n] m IH]; [reflexivity |].
  cbn [keys List.map fst In find]. intros X.
  destruct (String.eqb_spec key k) as [-> | D]; [tauto |].
  apply IH. tauto.
Qed.

(** X15.  In a histogram constructed with the flag [m_casesensitive] set, every
    key of the map is in lower case after any calls of the two [add]
    members: the flag makes [add] fold the words, so a spelling with an
    upper-case letter never has an entry of its own. *)
Theorem histogram_folds_case
  (p_separator : string) (h0 : histogram) (calls : list call) (key : string) :
  new p_separator true = inr h0 ->
  Forall lower (keys (m_map (fold_left perform calls h0))) /\
  (to_lower key <> key -> find key (m_map (fold_left perform calls h0)) = None).
Proof.
  intros H. pose proof (new_ok _ _ _ H) as E.
  assert (F : Forall lower (keys (m_map (fold_left perform calls h0)))).
  { rewrite perform_all_store. apply store_words_lower.
    - apply Forall_forall. intros w X. apply in_flat_map in X.
      destruct X as (c & _ & X).
      assert (C : m_casesensitive h0 = true) by now rewrite E.
      pose proof (counted_by_lower h0 c C) as G. rewrite Forall_forall in G.
      now apply G.
    - rewrite E. constructor. }
  split; [exact F |].
  intros U. apply find_none_of_keys. intros X.
  rewrite Forall_forall in F. exact (U (F _ X)).
Qed.

Lemma histogram_folds_case_witness :
  find "The" (m_map (fold_left perform [Add "The the THE" 0]
                       {| m_seperators := " "; m_casesensitive := true;
                          m_map := []; m_wordcount := 0%N |})) = None.
Proof.
  apply (proj2 (histogram_folds_case " "
                  {| m_seperators := " "; m_casesensitive := true;
                     m_map := []; m_wordcount := 0%N |}
                  [Add "The the THE" 0] "The" eq_refl)).
  discriminate.
Defined.

(** ** Empty tokens *)

Lemma split_length (pred : ascii -> bool) (input : string) :
  List.length (split pred input) = S (separators_in pred input).
Proof.
  induction input as [|c input IH]; [reflexivity |].
  cbn [split separators_in]. destruct (pred c).
  - cbn [List.length]. now rewrite IH.
  - destruct (split pred input) as [|t ts]; [discriminate |]. exact IH.
Qed.

Lemma filter_all {A} (f : A -> bool) (l : list A) :
  (forall x, f x = true) -> filter f l = l.
Proof.
  intros H. induction l as [|x l IH]; [reflexivity |].
  cbn [filter]. now rewrite H, IH.
Qed.

Lemma long_enough_0 (token : string) : long_enough 0 token = true.
Proof.
  unfold long_enough. destruct (N.ltb_spec (N.of_nat (String.length token)) 0);
    [lia | reflexivity].
Qed.

Lemma stored_length (casesensitive : bool) (token : string) :
  String.length (stored casesensitive token) = String.length token.
Proof. destruct casesensitive; [apply to_lower_length | reflexivity]. Qed.

Lemma occurrences_absent (key : string) (ws : list string) :
  ~ In key ws -> occurrences key ws = 0%N.
Proof.
  induction ws as [|w ws IH]; [reflexivity |].
  cbn [In]. intros X. rewrite occurrences_cons, IH by tauto.
  destruct (String.eqb_spec key w) as [-> | D]; [tauto | reflexivity].
Qed.

Lemma counted_not_empty (h : histogram) (p_text : string) (p_minlen : N) :
  (0 < p_minlen)%N -> ~ In EmptyString (counted h p_text p_minlen).
Proof.
  intros P X. unfold counted in X. apply in_map_iff in X.
  destruct X as (t & E & X). apply filter_In in X. destruct X as [_ L].
  assert (Z : String.length t = O)
    by (rewrite <- (stored_length (m_casesensitive h)), E; reflexivity).
  unfold long_enough in L. rewrite Z in L.
  destruct (N.ltb_spec (N.of_nat 0) p_minlen); [discriminate | lia].
Qed.

(** X16.  With a [p_minlen] of 0, the default, [add] counts every token of the
    text, the empty ones too: the word count grows by one more than the
    number of separator characters in the text, so the empty text counts
    as one word.  With a [p_minlen] of 1 or more no empty token is
    counted: the count of the empty word stays as it was. *)
Theorem add_counts_empty_tokens (h : histogram) (p_text : string) (p_minlen : N) :
  in_range h ->
  getWordCount (add p_text 0 h)
  = size_t_wrap (getWordCount h
                 + N.of_nat (S (separators_in (is_any_of (m_seperators h)) p_text))) /\
  ((0 < p_minlen)%N ->
     count EmptyString (m_map (add p_text p_minlen h))
     = count EmptyString (m_map h)).
Proof.
  intros R. split.
  - rewrite add_store. unfold getWordCount.
    rewrite <- (wrap_small _ (proj1 (store_words_range _ _ R))).
    rewrite store_words_wordcount. unfold counted.
    rewrite (filter_all _ _ long_enough_0), length_map, split_length.
    reflexivity.
  - intros P. rewrite add_store.
    rewrite <- (wrap_small _ (count_in_range EmptyString _
                               (proj2 (store_words_range _ _ R)))).
    rewrite store_words_count.
    rewrite (occurrences_absent _ _ (counted_not_empty h p_text p_minlen P)).
    rewrite N.add_0_r. apply wrap_small, count_in_range, R.
Qed.

Lemma add_counts_empty_tokens_witness :
  getWordCount (add "" 0 default) = 1%N /\
  getWordCount (add ",," 0 default) = 3%N /\
  count EmptyString (m_map (add ",," 1 default)) = 0%N.
Proof.
  assert (R : in_range default) by (split; [reflexivity | constructor]).
  split; [| split].
  - exact (proj1 (add_counts_empty_tokens default "" 0 R)).
  - exact (proj1 (add_counts_empty_tokens default ",," 0 R)).
  - apply (proj2 (add_counts_empty_tokens default ",," 1 R)). reflexivity.
Defined.

End histogram_facts.
